(** * PAA: probabilistic anchor assignment and its losses

    A shallow embedding of [paa_core/modeling/rpn/paa/loss.py]
    (class [PAALossComputation]) and the properties of its label
    assignment engine ([compute_paa]), its GIoU loss ([GIoULoss]) and its
    loss aggregation ([__call__]).

    Conventions of the embedding.
    - A 1-D tensor is a [list]; a tensor of boxes is a list of [Box] rows.
    - Float values are modelled by exact rationals [Q]: every finite float
      is a rational, and comparisons of non-NaN floats are the comparisons
      of the rationals they denote.  Arithmetic is exact (no rounding).
    - Integer tensors (labels, matched indices) are lists of [Z]; positions
      in a tensor are [nat].
    - A Python exception is a [Raise e] result; the code has no handler
      anywhere, so [Raise] propagates through the bind of the monad.
    - Collaborators that are not part of this file of the repository
      (the mixture fit of scikit-learn, the box coder, the focal loss, ...)
      are [Variable]s of the sections below. *)

From Stdlib Require Import ZArith QArith Qminmax Lia Lqa String.
From stdpp Require Import base option list sorting strings.

Close Scope Q_scope.
Local Open Scope nat_scope.

(** ** Exceptions and results *)

Inductive exn : Type :=
| AssertionError
| IndexError
| RuntimeError
| AttributeError
| NotImplementedError
| ZeroDivisionError
| UnboundLocalError (name : string)
| LibraryError (code : nat).

Inductive result (A : Type) : Type :=
| Ok (a : A)
| Raise (e : exn).
Arguments Ok {A} a.
Arguments Raise {A} e.

#[global] Instance result_ret : MRet result := λ A a, Ok a.
#[global] Instance result_bind : MBind result :=
  λ A B f m, match m with Ok a => f a | Raise e => Raise e end.

Definition is_ok {A} (r : result A) : Prop := ∃ a, r = Ok a.
Definition is_raise {A} (r : result A) : Prop := ∃ e, r = Raise e.

Definition assert (b : bool) : result unit :=
  if b then Ok () else Raise AssertionError.

Definition getitem {A} (t : list A) (i : nat) : result A :=
  match t !! i with Some x => Ok x | None => Raise IndexError end.

(** ** Tensor primitives (the torch operations the source uses) *)

(** [t[a:b]]: Python slicing, clipped at the end of the tensor. *)
Definition slice {A} (t : list A) (a b : nat) : list A := take (b - a) (drop a t).

(** [torch.nonzero(mask)[:, 0]]: positions of the true entries, ascending. *)
Fixpoint nonzero_from (i : nat) (mask : list bool) : list nat :=
  match mask with
  | [] => []
  | b :: m => if b then i :: nonzero_from (S i) m else nonzero_from (S i) m
  end.
Definition nonzero (mask : list bool) : list nat := nonzero_from 0 mask.

(** [t[idx]] with an index tensor: every index must be in range. *)
Fixpoint index_select {A} (t : list A) (idx : list nat) : result (list A) :=
  match idx with
  | [] => Ok []
  | i :: idx' =>
      x ← getitem t i;
      xs ← index_select t idx';
      Ok (x :: xs)
  end.

(** [t[mask]] with a boolean mask of the shape of [t]. *)
Fixpoint filter_mask {A} (t : list A) (mask : list bool) : list A :=
  match t, mask with
  | x :: t', b :: m' => if b then x :: filter_mask t' m' else filter_mask t' m'
  | _, _ => []
  end.
Definition mask_select {A} (t : list A) (mask : list bool) : result (list A) :=
  if decide (length mask = length t) then Ok (filter_mask t mask)
  else Raise IndexError.

(** [t[idx] = v] with an index tensor and one broadcast value. *)
Fixpoint index_put {A} (t : list A) (idx : list nat) (v : A) : result (list A) :=
  match idx with
  | [] => Ok t
  | i :: idx' =>
      if decide (i < length t) then index_put (<[i:=v]> t) idx' v
      else Raise IndexError
  end.

(** Elementwise [&] and [|] of two boolean tensors of one shape. *)
Definition mask_and (a b : list bool) : result (list bool) :=
  if decide (length a = length b) then Ok (zip_with andb a b)
  else Raise RuntimeError.
Definition mask_or (a b : list bool) : result (list bool) :=
  if decide (length a = length b) then Ok (zip_with orb a b)
  else Raise RuntimeError.

(** Ascending order on scores, carried with the position of each score. *)
Definition le_fst : relation (Q * nat) := λ p q, Qle_bool p.1 q.1.

Definition enumerate (t : list Q) : list (Q * nat) := imap (λ i x, (x, i)) t.

(** [t.sort()]: the sorted values and, for every rank, the position the
    value came from.  The order among equal values is not fixed by torch;
    the embedding uses a merge sort. *)
Definition argsort (t : list Q) : list (Q * nat) := merge_sort le_fst (enumerate t).
Definition sort (t : list Q) : list Q * list nat := ((argsort t).*1, (argsort t).*2).

(** [t.topk(k, largest=False)[1]]: positions of the [k] smallest values. *)
Definition topk_smallest (t : list Q) (k : nat) : result (list nat) :=
  if decide (k ≤ length t) then Ok (take k (argsort t).*2)
  else Raise RuntimeError.

(** [t.min()] of a non-empty tensor of positions. *)
Definition tensor_min_nat (t : list nat) : result nat :=
  match t with [] => Raise RuntimeError | x :: t' => Ok (foldl Nat.min x t') end.

(** [t.min()] and [t.max()] of a non-empty tensor. *)
Definition tensor_min (t : list Q) : result Q :=
  match t with [] => Raise RuntimeError | x :: t' => Ok (foldl Qmin x t') end.
Definition tensor_max (t : list Q) : result Q :=
  match t with [] => Raise RuntimeError | x :: t' => Ok (foldl Qmax x t') end.

(** ** Boxes and targets *)

Record Box : Type := mkBox { bx1 : Q; by1 : Q; bx2 : Q; by2 : Q }.

Definition zero_box : Box := mkBox 0 0 0 0.

Inductive box_mode : Type := xyxy | xywh.

#[global] Instance box_mode_eq_dec : EqDecision box_mode.
Proof. solve_decision. Defined.

(** A [BoxList] of ground-truth boxes with its ["labels"] field. *)
Record BoxList : Type := mkBoxList {
  mode : box_mode;
  bbox : list Box;
  labels : list Z
}.

(** ** The adaptive assignment engine: [PAALossComputation.compute_paa] *)

(** How the positive candidates are picked out of [candidate_idxs[gt]]:
    an index tensor ([inds], [inds[:k]]) or the Python integer [0]. *)
Inductive selector : Type :=
| SelInt (i : nat)
| SelIdx (idx : list nat).

Definition select (cand : list nat) (s : selector) : result (list nat) :=
  match s with
  | SelInt i => x ← getitem cand i; Ok [x]
  | SelIdx idx => index_select cand idx
  end.

(** What [gmm.predict] and [gmm.score_samples] return for the samples. *)
Definition fit_result : Type := (list nat * list Q)%type.

Section Engine.

(** [cfg.MODEL.PAA.TOPK]. *)
Variable TOPK : nat.

(** [skm.GaussianMixture(2, weights_init=[0.5, 0.5], means_init=[[lo], [hi]],
    precisions_init=[[[1.0]], [[1.0]]])] followed by [fit], [predict] and
    [score_samples] on the sorted candidate losses: the component of
    every sample and its log-likelihood, or the exception of the
    library. *)
Variable gmm : Q * Q → list Q → result fit_result.

(** [box_coder.encode] on one (reference box, anchor) row. *)
Variable encode : Box → Box → Box.

Section PerImage.

Variable targets_per_im : BoxList.
(** [anchors[im_i]]: the anchors of the image, one list per level. *)
Variable anchors_im : list (list Box).
Variable labels_all_per_im : list Z.
Variable loss_all_per_im : list Q.
Variable matched_idx_all_per_im : list Z.

Definition bboxes_per_im : list Box := bbox targets_per_im.
Definition labels_per_im : list Z := labels targets_per_im.
(** [cat_boxlist(anchors[im_i]).bbox] *)
Definition anchors_per_im : list Box := concat anchors_im.
Definition num_anchors_per_level : list nat := map length anchors_im.
Definition num_gt : nat := length bboxes_per_im.

(** The mask [(matched_idx_per_level == gt) & (labels_per_level > 0)]. *)
Definition match_mask (gt : nat) (matched : list Z) (lbls : list Z) : list bool :=
  zip_with (λ m l, bool_decide (m = Z.of_nat gt) && bool_decide (0 < l)%Z)
           matched lbls.

(** The body of the loop over the levels, for one level that starts
    at [star_idx] and has [n] anchors: the candidates of the level. *)
Definition candidates_of_level (gt star_idx n : nat) : result (list (list nat)) :=
  let end_idx := star_idx + n in
  let loss_per_level := slice loss_all_per_im star_idx end_idx in
  let labels_per_level := slice labels_all_per_im star_idx end_idx in
  let matched_idx_per_level := slice matched_idx_all_per_im star_idx end_idx in
  let match_idx := nonzero (match_mask gt matched_idx_per_level labels_per_level) in
  if decide (0 < length match_idx) then
    vals ← index_select loss_per_level match_idx;
    topk_idxs ← topk_smallest vals (length match_idx `min` TOPK);
    topk_idxs_per_level_per_gt ← index_select match_idx topk_idxs;
    Ok [map (λ i, i + star_idx) topk_idxs_per_level_per_gt]
  else Ok [].

Fixpoint candidates_over_levels (gt : nat) (sizes : list nat) (star_idx : nat)
  : result (list (list nat)) :=
  match sizes with
  | [] => Ok []
  | n :: sizes' =>
      chunk ← candidates_of_level gt star_idx n;
      rest ← candidates_over_levels gt sizes' (star_idx + n);
      Ok (chunk ++ rest)
  end.

(** [candidate_idxs[gt]]: [None] when no level contributed. *)
Definition candidate_idxs_of (gt : nat) : result (option (list nat)) :=
  candidate_idxs_per_gt ← candidates_over_levels gt num_anchors_per_level 0;
  match candidate_idxs_per_gt with
  | [] => Ok None
  | _ => Ok (Some (concat candidate_idxs_per_gt))
  end.

Fixpoint candidate_idxs_loop (gts : list nat) : result (list (option (list nat))) :=
  match gts with
  | [] => Ok []
  | gt :: gts' =>
      c ← candidate_idxs_of gt;
      cs ← candidate_idxs_loop gts';
      Ok (c :: cs)
  end.

Definition select_candidates : result (list (option (list nat))) :=
  candidate_idxs_loop (seq 0 num_gt).

(** [matched_gts] before the loop: the IoU-matched box where the
    matched index is non-negative, zeros elsewhere. *)
Fixpoint fill_matched_gts (matched : list Z) : result (list Box) :=
  match matched with
  | [] => Ok []
  | m :: matched' =>
      b ← (if decide (0 ≤ m)%Z then getitem bboxes_per_im (Z.to_nat m)
           else Ok zero_box);
      bs ← fill_matched_gts matched';
      Ok (b :: bs)
  end.

Definition init_matched_gts : result (list Box) :=
  if decide (length matched_idx_all_per_im = length anchors_per_im)
  then fill_matched_gts matched_idx_all_per_im
  else Raise IndexError.

(** The state of the loop "fit 2-mode GMM per GT box": the two arrays
    it writes and the variable [is_grey], which lives across the
    iterations. *)
Record loop_state : Type := mkState {
  cls_labels_per_im : list Z;
  matched_gts : list Box;
  is_grey : option (list nat)
}.

(** The selectors [(is_pos, is_neg, is_grey)] after the branch on the
    number of candidates. *)
Definition partition_candidates (cand : list nat) (grey : option (list nat))
  : result (selector * option (list nat) * option (list nat)) :=
  if decide (1 < length cand) then
    candidate_loss ← index_select loss_all_per_im cand;
    let '(candidate_loss, inds) := sort candidate_loss in
    min_loss ← tensor_min candidate_loss;
    max_loss ← tensor_max candidate_loss;
    '(components, scores) ← gmm (min_loss, max_loss) candidate_loss;
    let fgs := map (λ c, bool_decide (c = 0)) components in
    let bgs := map (λ c, bool_decide (c = 1)) components in
    if decide (0 < length (nonzero fgs)) then
      fg_scores ← mask_select scores fgs;
      fg_max_score ← tensor_max fg_scores;
      at_max ← mask_and fgs (map (λ s, Qeq_bool s fg_max_score) scores);
      fg_max_idx ← tensor_min_nat (nonzero at_max);
      either ← mask_or fgs bgs;
      is_neg ← mask_select inds either;
      let is_pos := take (fg_max_idx + 1) inds in
      Ok (SelIdx is_pos, Some is_neg, grey)
    else
      Ok (SelIdx inds, None, None)
  else
    Ok (SelInt 0, None, None).

(** The commit of one ground-truth object: the writes through
    [grey_idx], [neg_idx] and [pos_idx], in the order of the source. *)
Definition commit (gt : nat) (cand : list nat) (st : loop_state)
  (is_pos : selector) (is_neg grey : option (list nat)) : result loop_state :=
  labels1 ← match grey with
            | Some sel =>
                grey_idx ← index_select cand sel;
                index_put (cls_labels_per_im st) grey_idx (-1)%Z
            | None => Ok (cls_labels_per_im st)
            end;
  labels2 ← match is_neg with
            | Some sel =>
                neg_idx ← index_select cand sel;
                index_put labels1 neg_idx 0%Z
            | None => Ok labels1
            end;
  pos_idx ← select cand is_pos;
  cls ← getitem labels_per_im gt;
  labels3 ← index_put labels2 pos_idx cls;
  box ← getitem bboxes_per_im gt;
  gts ← index_put (matched_gts st) pos_idx box;
  Ok (mkState labels3 gts grey).

(** One iteration of [for gt in range(num_gt)] of the second loop. *)
Definition paa_step (candidate_idxs : list (option (list nat))) (gt : nat)
  (st : loop_state) : result loop_state :=
  c ← getitem candidate_idxs gt;
  match c with
  | None => Ok st
  | Some cand =>
      '(is_pos, is_neg, grey) ← partition_candidates cand (is_grey st);
      commit gt cand st is_pos is_neg grey
  end.

Fixpoint paa_loop (candidate_idxs : list (option (list nat))) (gts : list nat)
  (st : loop_state) : result loop_state :=
  match gts with
  | [] => Ok st
  | gt :: gts' =>
      st' ← paa_step candidate_idxs gt st;
      paa_loop candidate_idxs gts' st'
  end.

(** The second half of the body of the image loop, from
    [n_labels = ...] to the end of the loop over the objects, with
    [candidate_idxs] as the first half left it. *)
Definition fit_per_gt (candidate_idxs : list (option (list nat)))
  : result loop_state :=
  let n_labels := length anchors_per_im in
  gts0 ← init_matched_gts;
  paa_loop candidate_idxs (seq 0 num_gt)
    (mkState (replicate n_labels 0%Z) gts0 None).

(** ... and the encoding of the boxes that the loop left in [matched_gts]. *)
Definition assign (candidate_idxs : list (option (list nat)))
  : result (list Z * list Box) :=
  st ← fit_per_gt candidate_idxs;
  let reg_targets_per_im := zip_with encode (matched_gts st) anchors_per_im in
  Ok (cls_labels_per_im st, reg_targets_per_im).

(** The body of [for im_i in range(len(targets))]. *)
Definition compute_paa_per_im : result (list Z * list Box) :=
  _ ← assert (bool_decide (mode targets_per_im = xyxy));
  _ ← assert (bool_decide (length labels_all_per_im = length matched_idx_all_per_im));
  candidate_idxs ← select_candidates;
  assign candidate_idxs.

End PerImage.

(** [compute_paa]: the image loop; the results are appended per image. *)
Fixpoint compute_paa_from (im_i : nat) (n : nat)
  (targets : list BoxList) (anchors : list (list (list Box)))
  (labels_all : list (list Z)) (loss_all : list (list Q))
  (matched_idx_all : list (list Z)) : result (list (list Z) * list (list Box)) :=
  match n with
  | 0 => Ok ([], [])
  | S n' =>
      targets_per_im ← getitem targets im_i;
      anchors_im ← getitem anchors im_i;
      labels_all_per_im ← getitem labels_all im_i;
      loss_all_per_im ← getitem loss_all im_i;
      matched_idx_all_per_im ← getitem matched_idx_all im_i;
      '(cls, reg) ← compute_paa_per_im targets_per_im anchors_im
                      labels_all_per_im loss_all_per_im matched_idx_all_per_im;
      '(cls_labels, reg_targets) ← compute_paa_from (S im_i) n' targets anchors
                                     labels_all loss_all matched_idx_all;
      Ok (cls :: cls_labels, reg :: reg_targets)
  end.

Definition compute_paa (targets : list BoxList) (anchors : list (list (list Box)))
  (labels_all : list (list Z)) (loss_all : list (list Q))
  (matched_idx_all : list (list Z)) : result (list (list Z) * list (list Box)) :=
  compute_paa_from 0 (length targets) targets anchors labels_all loss_all
    matched_idx_all.

End Engine.

(** ** Arithmetic on float tensors *)

Definition Qlt_bool (x y : Q) : bool := negb (Qle_bool y x).

(** [t.sum()] *)
Definition tensor_sum (t : list Q) : Q := foldr Qplus 0%Q t.

(** [a * b] on 1-D tensors: elementwise, a tensor of one element is
    broadcast, other shapes do not match. *)
Definition tensor_mul (a b : list Q) : result (list Q) :=
  if decide (length a = length b) then Ok (zip_with Qmult a b)
  else match a, b with
       | _, [w] => Ok (map (λ x, x * w)%Q a)
       | [x], _ => Ok (map (λ w, x * w)%Q b)
       | _, _ => Raise RuntimeError
       end.

(** [a + b] on 1-D tensors of one shape. *)
Definition tensor_add (a b : list Q) : result (list Q) :=
  if decide (length a = length b) then Ok (zip_with Qplus a b)
  else Raise RuntimeError.

(** [t[idx] = vals] with an index tensor and a tensor of values. *)
Fixpoint scatter {A} (t : list A) (idx : list nat) (vals : list A) : result (list A) :=
  match idx, vals with
  | [], [] => Ok t
  | i :: idx', v :: vals' =>
      if decide (i < length t) then scatter (<[i:=v]> t) idx' vals'
      else Raise IndexError
  | _, _ => Raise RuntimeError
  end.

(** [torch.cat(ts, dim=0)]: the list of tensors must not be empty. *)
Definition torch_cat {A} (ts : list (list A)) : result (list A) :=
  match ts with [] => Raise RuntimeError | _ => Ok (concat ts) end.

(** [t.view(N, -1)] of a flat tensor: [N] rows of one length. *)
Fixpoint rows_of {A} (n len : nat) (t : list A) : list (list A) :=
  match n with
  | 0 => []
  | S n' => take len t :: rows_of n' len (drop len t)
  end.
Definition view_rows {A} (N : nat) (t : list A) : result (list (list A)) :=
  if decide (0 < N ∧ length t `mod` N = 0)
  then Ok (rows_of N (length t `div` N) t)
  else Raise RuntimeError.

(** [t.view(-1, n).mean(1)] *)
Definition view_mean (n : nat) (t : list Q) : result (list Q) :=
  if decide (0 < n ∧ length t `mod` n = 0)
  then Ok (map (λ r, tensor_sum r / inject_Z (Z.of_nat n))%Q
               (rows_of (length t `div` n) n t))
  else Raise RuntimeError.

(** ** The GIoU loss: [PAALossComputation.GIoULoss] *)

(** The constant [1e-7] added to the enclosing area and to the union. *)
Definition eps : Q := 1 # 10000000.

(** The computation of [GIoULoss] on one row: a decoded prediction and a
    decoded target, down to [losses = 1 - gious]. *)
Definition pred_area (p : Box) : Q :=
  let pred_x2 := Qmax (bx1 p) (bx2 p) in
  let pred_y2 := Qmax (by1 p) (by2 p) in
  ((pred_x2 - bx1 p) * (pred_y2 - by1 p))%Q.

Definition target_area (t : Box) : Q :=
  ((bx2 t - bx1 t) * (by2 t - by1 t))%Q.

Definition area_intersect (p t : Box) : Q :=
  let pred_x2 := Qmax (bx1 p) (bx2 p) in
  let pred_y2 := Qmax (by1 p) (by2 p) in
  let x1_intersect := Qmax (bx1 p) (bx1 t) in
  let y1_intersect := Qmax (by1 p) (by1 t) in
  let x2_intersect := Qmin pred_x2 (bx2 t) in
  let y2_intersect := Qmin pred_y2 (by2 t) in
  let mask := Qlt_bool y1_intersect y2_intersect
              && Qlt_bool x1_intersect x2_intersect in
  if mask
  then ((x2_intersect - x1_intersect) * (y2_intersect - y1_intersect))%Q
  else 0%Q.

Definition area_enclosing (p t : Box) : Q :=
  let pred_x2 := Qmax (bx1 p) (bx2 p) in
  let pred_y2 := Qmax (by1 p) (by2 p) in
  let x1_enclosing := Qmin (bx1 p) (bx1 t) in
  let y1_enclosing := Qmin (by1 p) (by1 t) in
  let x2_enclosing := Qmax pred_x2 (bx2 t) in
  let y2_enclosing := Qmax pred_y2 (by2 t) in
  ((x2_enclosing - x1_enclosing) * (y2_enclosing - y1_enclosing) + eps)%Q.

Definition area_union (p t : Box) : Q :=
  (pred_area p + target_area t - area_intersect p t + eps)%Q.

Definition giou_loss_row (p t : Box) : Q :=
  let ious := (area_intersect p t / area_union p t)%Q in
  let gious := (ious - (area_enclosing p t - area_union p t) / area_enclosing p t)%Q in
  (1 - gious)%Q.

Section Losses.

(** [box_coder.decode] on one (codes, anchor) row. *)
Variable decode : Box → Box → Box.

(** [box_coder.decode(codes.view(-1, 4), anchor.view(-1, 4))] *)
Definition decode_rows (codes anchor : list Box) : result (list Box) :=
  if decide (length codes = length anchor) then Ok (zip_with decode codes anchor)
  else Raise RuntimeError.

(** The per-anchor values [losses] of [GIoULoss], before the weights. *)
Definition giou_losses (pred target anchor : list Box) : result (list Q) :=
  pred_boxes ← decode_rows pred anchor;
  gt_boxes ← decode_rows target anchor;
  Ok (zip_with giou_loss_row pred_boxes gt_boxes).

Definition GIoULoss (pred target anchor : list Box) (weight : option (list Q))
  : result (list Q) :=
  losses ← giou_losses pred target anchor;
  match weight with
  | Some w =>
      if Qlt_bool 0 (tensor_sum w) then tensor_mul losses w
      else (_ ← assert (negb (bool_decide (length losses = 0))); Ok losses)
  | None => _ ← assert (negb (bool_decide (length losses = 0))); Ok losses
  end.


(** [compute_reg_loss]: the configured regression loss, restricted to the
    anchors with a positive label.  The branch ['smoothl1'] reads
    [self.bbox_reg_beta], which the class never sets. *)
Definition compute_reg_loss (reg_loss_type : string)
  (regression_targets box_regression all_anchors : list Box)
  (lbls : list Z) (weights : option (list Q)) : result (list Q) :=
  reg_loss ←
    (if bool_decide (is_Some (String.index 0 "iou" reg_loss_type)) then
       GIoULoss box_regression regression_targets all_anchors weights
     else if bool_decide (reg_loss_type = "smoothl1"%string) then
       Raise AttributeError
     else Raise NotImplementedError);
  mask_select reg_loss (map (λ l, bool_decide (0 < l)%Z) lbls).

(** [compute_ious] on one row. *)
Definition compute_ious_row (b1 b2 : Box) : Q :=
  let area1 := ((bx2 b1 - bx1 b1 + 1) * (by2 b1 - by1 b1 + 1))%Q in
  let area2 := ((bx2 b2 - bx1 b2 + 1) * (by2 b2 - by1 b2 + 1))%Q in
  let w := Qmax (Qmin (bx2 b1) (bx2 b2) - Qmax (bx1 b1) (bx1 b2) + 1) 0 in
  let h := Qmax (Qmin (by2 b1) (by2 b2) - Qmax (by1 b1) (by1 b2) + 1) 0 in
  let inter := (w * h)%Q in
  (inter / (area1 + area2 - inter))%Q.

Definition compute_ious (boxes1 boxes2 : list Box) : result (list Q) :=
  if decide (length boxes1 = length boxes2)
  then Ok (zip_with compute_ious_row boxes1 boxes2)
  else Raise RuntimeError.

End Losses.

(** ** The loss aggregation: [prepare_iou_based_targets] and [__call__] *)

(** The sentinel score of an anchor without a regression target. *)
Definition INF : Q := inject_Z 100000000.

(** Reading a local variable that no executed statement has bound. *)
Definition read_local {A} (name : string) (v : option A) : result A :=
  match v with Some x => Ok x | None => Raise (UnboundLocalError name) end.

(** [torch.cat] of [1 x n] rows along dimension 0: one width for all. *)
Definition cat_rows {A} (rows : list (list A)) : result (list (list A)) :=
  match rows with
  | [] => Raise RuntimeError
  | r :: rows' =>
      if bool_decide (Forall (λ r', length r' = length r) rows') then Ok rows
      else Raise RuntimeError
  end.

Section Call.

(** The configuration: [cfg.MODEL.PAA.TOPK], [REG_LOSS_TYPE],
    [REG_LOSS_WEIGHT], [IOU_LOSS_WEIGHT]. *)
Variable TOPK : nat.
Variable reg_loss_type : string.
Variable REG_LOSS_WEIGHT : Q.
Variable iou_loss_weight : Q.

(** The collaborators of the class. *)
Variable gmm : Q * Q → list Q → result fit_result.
Variable decode : Box → Box → Box.
Variable encode : Box → Box → Box.
(** [SigmoidFocalLoss(gamma, alpha)(logits, labels, sum=False)] *)
Variable cls_loss_func : list (list Q) → list Z → list (list Q).
(** [nn.BCEWithLogitsLoss(reduction="sum")] *)
Variable iou_pred_loss_func : list Q → list Q → Q.
(** [Matcher(thr, thr, True)] with its two sentinels, and [boxlist_iou]. *)
Variable matcher : list (list Q) → result (list Z).
Variable BELOW_LOW_THRESHOLD : Z.
Variable BETWEEN_THRESHOLDS : Z.
Variable boxlist_iou : list Box → list Box → list (list Q).
(** The raw 4-D prediction tensors and their flattening. *)
Variable Tensor : Type.
Variable concat_box_prediction_layers :
  list Tensor → list Tensor → list (list Q) * list Box.
Variable flatten_iou_pred : nat → list Tensor → list Q.
(** [os.environ["WORLD_SIZE"]] when it is set, and [dist.all_reduce]. *)
Variable WORLD_SIZE : option nat.
Variable all_reduce : Q → Q.

Definition get_num_gpus : nat :=
  match WORLD_SIZE with Some n => n | None => 1 end.

Definition reduce_sum (x : Q) : Q :=
  if decide (get_num_gpus ≤ 1) then x else all_reduce x.

(** The body of the image loop of [prepare_iou_based_targets]. *)
Definition prepare_iou_based_targets_per_im (targets_per_im : BoxList)
  (anchors_im : list (list Box)) : result (list Z * list Box * list Z) :=
  _ ← assert (bool_decide (mode targets_per_im = xyxy));
  let anchors_per_im := concat anchors_im in
  let match_quality_matrix := boxlist_iou (bbox targets_per_im) anchors_per_im in
  matched_idxs ← matcher match_quality_matrix;
  let clamped := map (λ m, Z.to_nat (Z.max m 0)) matched_idxs in
  matched_labels ← index_select (labels targets_per_im) clamped;
  matched_gts ← index_select (bbox targets_per_im) clamped;
  let cls_labels_per_im :=
    zip_with (λ m l, if bool_decide (m = BETWEEN_THRESHOLDS) then (-1)%Z
                     else if bool_decide (m = BELOW_LOW_THRESHOLD) then 0%Z
                     else l) matched_idxs matched_labels in
  let reg_targets_per_im := zip_with encode matched_gts anchors_per_im in
  Ok (cls_labels_per_im, reg_targets_per_im, matched_idxs).

Fixpoint prepare_iou_based_targets_from (im_i n : nat) (targets : list BoxList)
  (anchors : list (list (list Box)))
  : result (list (list Z) * list (list Box) * list (list Z)) :=
  match n with
  | 0 => Ok ([], [], [])
  | S n' =>
      targets_per_im ← getitem targets im_i;
      anchors_im ← getitem anchors im_i;
      '(cls, reg, matched) ← prepare_iou_based_targets_per_im targets_per_im anchors_im;
      '(cls_labels, reg_targets, matched_idx_all) ←
        prepare_iou_based_targets_from (S im_i) n' targets anchors;
      Ok (cls :: cls_labels, reg :: reg_targets, matched :: matched_idx_all)
  end.

Definition prepare_iou_based_targets (targets : list BoxList)
  (anchors : list (list (list Box)))
  : result (list (list Z) * list (list Box) * list (list Z)) :=
  prepare_iou_based_targets_from 0 (length targets) targets anchors.

(** The local variables of [__call__] that only the branch
    [pos_inds.numel() > 0] binds. *)
Record branch_locals : Type := mkLocals {
  reg_loss : list Q;
  cls_loss : option (list (list Q));
  num_pos_avg_per_gpu : option Q;
  sum_ious_targets_avg_per_gpu : option Q;
  iou_pred_loss : option Q
}.

(** The branch [if pos_inds.numel() > 0] of [__call__].  The assertion
    [not torch.isnan(combined_loss).any()] has no counterpart: a rational
    is never NaN.  Where a float division by zero gives [inf] or [nan],
    the division of [Q] gives 0; no statement below divides by zero. *)
Definition positive_branch (N : nat) (targets : list BoxList)
  (anchors : list (list (list Box)))
  (box_cls_flatten : list (list Q)) (box_regression_flatten anchors_flatten : list Box)
  (iou_pred_flatten : option (list Q))
  (iou_based_labels_flatten : list Z) (iou_based_reg_targets_flatten : list Box)
  (matched_idx_all : list (list Z)) (pos_inds : list nat) : result branch_locals :=
  let has_iou := bool_decide (is_Some (String.index 0 "iou" reg_loss_type)) in
  let n_loss_per_box := if has_iou then 1 else 4 in
  let iou_based_cls_loss := cls_loss_func box_cls_flatten iou_based_labels_flatten in
  iou_based_reg_loss ← compute_reg_loss decode reg_loss_type
                         iou_based_reg_targets_flatten box_regression_flatten
                         anchors_flatten iou_based_labels_flatten None;
  let iou_based_reg_loss_full := replicate (length iou_based_cls_loss) INF in
  means ← view_mean n_loss_per_box iou_based_reg_loss;
  iou_based_reg_loss_full ← scatter iou_based_reg_loss_full pos_inds means;
  combined_loss ← tensor_add (map tensor_sum iou_based_cls_loss) iou_based_reg_loss_full;
  labels_rows ← view_rows N iou_based_labels_flatten;
  loss_rows ← view_rows N combined_loss;
  '(lbls, reg_targets) ← compute_paa TOPK gmm encode targets anchors
                            labels_rows loss_rows matched_idx_all;
  let num_gpus := get_num_gpus in
  labels_flatten ← torch_cat lbls;
  reg_targets_flatten ← torch_cat reg_targets;
  let pos_inds := nonzero (map (λ l, bool_decide (0 < l)%Z) labels_flatten) in
  let total_num_pos := reduce_sum (inject_Z (Z.of_nat (length pos_inds))) in
  _ ← (if decide (num_gpus = 0) then Raise ZeroDivisionError else Ok ());
  let num_pos_avg := Qmax (total_num_pos / inject_Z (Z.of_nat num_gpus)) 1 in
  box_regression_flatten ← index_select box_regression_flatten pos_inds;
  reg_targets_flatten ← index_select reg_targets_flatten pos_inds;
  anchors_flatten ← index_select anchors_flatten pos_inds;
  '(iou_loss, sum_ious, reg_loss_weight) ←
    match iou_pred_flatten with
    | Some ip =>
        ip ← index_select ip pos_inds;
        gt_boxes ← decode_rows decode reg_targets_flatten anchors_flatten;
        boxes ← decode_rows decode box_regression_flatten anchors_flatten;
        ious ← compute_ious gt_boxes boxes;
        let l := (iou_pred_loss_func ip ious / num_pos_avg * iou_loss_weight)%Q in
        let s := (reduce_sum (tensor_sum ious) / inject_Z (Z.of_nat num_gpus))%Q in
        Ok (Some l, Some s, Some ious)
    | None => Ok (None, None, None)
    end;
  pos_labels ← index_select labels_flatten pos_inds;
  reg ← compute_reg_loss decode reg_loss_type reg_targets_flatten
          box_regression_flatten anchors_flatten pos_labels reg_loss_weight;
  let cls := cls_loss_func box_cls_flatten labels_flatten in
  Ok (mkLocals reg (Some cls) (Some num_pos_avg) sum_ious iou_loss).

(** [PAALossComputation.__call__]; the argument [locations] is not used. *)
Definition call (box_cls box_regression : list Tensor)
  (iou_pred : option (list Tensor)) (targets : list BoxList)
  (anchors : list (list (list Box))) : result (list Q) :=
  prepared ← prepare_iou_based_targets targets anchors;
  let '(iou_based_labels, iou_based_reg_targets, matched_idx_all) := prepared in
  matched_idx_all ← cat_rows matched_idx_all;
  let N := length iou_based_labels in
  iou_based_labels_flatten ← torch_cat iou_based_labels;
  iou_based_reg_targets_flatten ← torch_cat iou_based_reg_targets;
  let '(box_cls_flatten, box_regression_flatten) :=
    concat_box_prediction_layers box_cls box_regression in
  anchors_flatten ← torch_cat (map (λ anchors_per_image, concat anchors_per_image) anchors);
  let iou_pred_flatten := flatten_iou_pred N <$> iou_pred in
  let pos_inds :=
    nonzero (map (λ l, bool_decide (0 < l)%Z) iou_based_labels_flatten) in
  loc ← (if decide (0 < length pos_inds) then
           positive_branch N targets anchors box_cls_flatten
             box_regression_flatten anchors_flatten iou_pred_flatten
             iou_based_labels_flatten iou_based_reg_targets_flatten
             matched_idx_all pos_inds
         else
           let reg_loss :=
             [tensor_sum (map (λ b, bx1 b + by1 b + bx2 b + by2 b)%Q
                              box_regression_flatten)] in
           Ok (mkLocals reg_loss None None None None));
  reg_norm ← (if bool_decide (is_Some iou_pred)
              then read_local "sum_ious_targets_avg_per_gpu"
                     (sum_ious_targets_avg_per_gpu loc)
              else read_local "num_pos_avg_per_gpu" (num_pos_avg_per_gpu loc));
  cls ← read_local "cls_loss" (cls_loss loc);
  num_pos_avg ← read_local "num_pos_avg_per_gpu" (num_pos_avg_per_gpu loc);
  let res := [(tensor_sum (map tensor_sum cls) / num_pos_avg)%Q;
              (tensor_sum (reg_loss loc) / reg_norm * REG_LOSS_WEIGHT)%Q] in
  if bool_decide (is_Some iou_pred) then
    l ← read_local "iou_pred_loss" (iou_pred_loss loc);
    Ok (res ++ [l])
  else Ok res.

End Call.

(** ** Locations of the feature maps: [paa.py], [PAAModule.compute_locations] *)

(** [torch.arange(0, stop, step=step)] on integers: a zero step raises. *)
Definition arange (stop step : nat) : result (list nat) :=
  if decide (step = 0) then Raise RuntimeError
  else Ok (map (λ k, k * step) (seq 0 ((stop + step - 1) `div` step))).

(** [torch.meshgrid(ys, xs)]: two grids of [len(ys)] rows and [len(xs)]
    columns, the first constant along the rows, the second along the
    columns. *)
Definition meshgrid (ys xs : list nat) : list (list nat) * list (list nat) :=
  (map (λ y, map (λ _, y) xs) ys, map (λ _, xs) ys).

Definition compute_locations_per_level (h w stride : nat)
  : result (list (nat * nat)) :=
  shifts_x ← arange (w * stride) stride;
  shifts_y ← arange (h * stride) stride;
  let '(shift_y, shift_x) := meshgrid shifts_y shifts_x in
  let shift_x := concat shift_x in
  let shift_y := concat shift_y in
  Ok (zip_with (λ x y, (x + stride `div` 2, y + stride `div` 2)) shift_x shift_y).

(** [compute_locations]: a feature map is given by its height and its
    width; level [level] uses [self.fpn_strides[level]]. *)
Fixpoint compute_locations_from (fpn_strides : list nat) (level : nat)
  (features : list (nat * nat)) : result (list (list (nat * nat))) :=
  match features with
  | [] => Ok []
  | (h, w) :: features' =>
      stride ← getitem fpn_strides level;
      locations_per_level ← compute_locations_per_level h w stride;
      locations ← compute_locations_from fpn_strides (S level) features';
      Ok (locations_per_level :: locations)
  end.

Definition compute_locations (fpn_strides : list nat) (features : list (nat * nat))
  : result (list (list (nat * nat))) :=
  compute_locations_from fpn_strides 0 features.

(** ** The IoU of the predicted boxes: [PAAIoUCalc.__call__] *)



Section IoUCalc.

Variable decode : Box → Box → Box.
(** [boxlist_iou(cur_boxes, cur_targets).max(dim=1)[0]] *)
Variable max_iou : list Box → BoxList → result (list Q).
Variable Tensor : Type.
Variable concat_box_prediction_layers :
  list Tensor → list Tensor → list (list Q) * list Box.





End IoUCalc.

(** ** Vocabulary of the statements *)

(** Anchor [a] is eligible for ground-truth object [gt]: its IoU-based
    matched index is [gt] and its IoU-based label is positive. *)
Definition eligible (labels_all : list Z) (matched_idx_all : list Z)
  (gt a : nat) : Prop :=
  matched_idx_all !! a = Some (Z.of_nat gt) ∧
  ∃ l, labels_all !! a = Some l ∧ (0 < l)%Z.

#[global] Instance eligible_dec labels_all matched_idx_all gt a :
  Decision (eligible labels_all matched_idx_all gt a).
Proof.
  unfold eligible.
  destruct (labels_all !! a) as [l|].
  - destruct (decide (matched_idx_all !! a = Some (Z.of_nat gt) ∧ (0 < l)%Z))
      as [H|H].
    + left. destruct H as [H1 H2]. split; [done|]. by exists l.
    + right. intros [H1 (l' & [= <-] & H2)]. by apply H.
  - right. by intros [_ (l & [=] & _)].
Defined.

(** Anchor position [a] lies in the pyramid level that starts at
    [star_idx] and has [n] anchors. *)
Definition in_level (star_idx n a : nat) : Prop := star_idx ≤ a < star_idx + n.

#[global] Instance in_level_dec star_idx n a : Decision (in_level star_idx n a).
Proof. unfold in_level. apply _. Defined.

(** The first anchor position of level [k]. *)
Definition level_start (sizes : list nat) (k : nat) : nat := sum_list (take k sizes).

(** The candidates of an object as a list: nothing for [None]. *)
Definition candidate_list (c : option (list nat)) : list nat := default [] c.

(** The anchors that an object with candidates [cand] marks positive
    ([pos_idx]) and the ones it resets to background ([neg_idx]). *)
Definition positives_of (gmm : Q * Q → list Q → result fit_result)
  (loss_all_per_im : list Q) (cand : list nat) : result (list nat) :=
  '(is_pos, _, _) ← partition_candidates gmm loss_all_per_im cand None;
  select cand is_pos.

Definition negatives_of (gmm : Q * Q → list Q → result fit_result)
  (loss_all_per_im : list Q) (cand : list nat) : result (list nat) :=
  '(_, is_neg, _) ← partition_candidates gmm loss_all_per_im cand None;
  match is_neg with
  | Some sel => index_select cand sel
  | None => Ok []
  end.


(** The mixture fit that the engine runs for an object with candidates
    [cand]: on the sorted candidate losses, initialised at their minimum
    and maximum. *)
Definition fit_of (gmm : Q * Q → list Q → result fit_result)
  (loss_all_per_im : list Q) (cand : list nat) : result fit_result :=
  candidate_loss ← index_select loss_all_per_im cand;
  let '(candidate_loss, inds) := sort candidate_loss in
  min_loss ← tensor_min candidate_loss;
  max_loss ← tensor_max candidate_loss;
  gmm (min_loss, max_loss) candidate_loss.

(** The candidates of an object in ascending order of their losses. *)
Definition sorted_candidates (loss_all_per_im : list Q) (cand : list nat)
  : result (list nat) :=
  candidate_loss ← index_select loss_all_per_im cand;
  index_select cand (sort candidate_loss).2.

(** Rank [r] is the cutoff of a fit: the first member of component 0
    whose log-likelihood is the maximum over the members of component 0. *)
Definition is_cutoff (components : list nat) (scores : list Q) (r : nat) : Prop :=
  ∃ sr, components !! r = Some 0 ∧ scores !! r = Some sr ∧
    (∀ r' s', components !! r' = Some 0 → scores !! r' = Some s' → (s' <= sr)%Q) ∧
    (∀ r' s', r' < r → components !! r' = Some 0 → scores !! r' = Some s' →
              ¬ (s' == sr)%Q).

(** Object [g] marks anchor [a] positive: [a] is among the positives of
    the candidates of [g]. *)
Definition marks_positive (gmm : Q * Q → list Q → result fit_result)
  (loss_all_per_im : list Q) (candidate_idxs : list (option (list nat)))
  (g a : nat) : Prop :=
  ∃ cand pos, candidate_idxs !! g = Some (Some cand) ∧
              positives_of gmm loss_all_per_im cand = Ok pos ∧ a ∈ pos.


(** ** A small image to run the engine on

    Six anchors on two levels (four and two), four objects of classes
    3, 5, 7 and 2.  The IoU-based pass matched anchors 0, 1, 3 to object 0,
    anchors 2 and 4 to object 1, anchor 5 to object 2 and no anchor to
    object 3.  The losses of the anchors of object 0 are 0.5, 0.1 and 0.9. *)

Definition box_of (a b c d : Z) : Box :=
  mkBox (inject_Z a) (inject_Z b) (inject_Z c) (inject_Z d).

Definition scene_targets : BoxList :=
  mkBoxList xyxy
    [box_of 0 0 10 10; box_of 20 20 40 40; box_of 50 50 60 60; box_of 70 70 80 80]
    [3; 5; 7; 2]%Z.

Definition scene_anchors : list (list Box) :=
  [[box_of 0 0 8 8; box_of 1 1 10 10; box_of 20 20 36 36; box_of 2 2 12 12];
   [box_of 16 16 40 40; box_of 48 48 64 64]].

Definition scene_labels_all : list Z := [3; 3; 5; 3; 5; 7]%Z.
Definition scene_matched : list Z := [0; 0; 1; 0; 1; 2]%Z.
Definition scene_loss : list Q := [5 # 10; 1 # 10; 3 # 10; 9 # 10; 7 # 10; 2 # 10]%Q.

(** The same image with one loss for every anchor. *)
Definition flat_loss : list Q := [1 # 2; 1 # 2; 1 # 2; 1 # 2; 1 # 2; 1 # 2]%Q.

(** Stand-ins for the collaborators, to evaluate the engine on the image.
    [nearest_mean_fit] puts a sample into component 0 when it is at
    least as close to the lower initial mean as to the upper one, with
    minus the distance to that mean as its log-likelihood;
    [background_fit] puts every sample into component 1; [tied_fit]
    puts every sample into component 0 with one log-likelihood;
    [raising_fit] is a fit that raises. *)
Definition nearest_mean_fit (init : Q * Q) (X : list Q) : result fit_result :=
  let '(lo, hi) := init in
  Ok (map (λ x, if Qle_bool (x - lo) (hi - x) then 0 else 1) X,
      map (λ x, - Qmin (x - lo) (hi - x))%Q X).

Definition background_fit (init : Q * Q) (X : list Q) : result fit_result :=
  Ok (map (λ _, 1) X, map (λ _, 0%Q) X).

Definition tied_fit (init : Q * Q) (X : list Q) : result fit_result :=
  Ok (map (λ _, 0) X, map (λ _, 0%Q) X).


(** A coder that encodes a box as its offsets from the anchor. *)
Definition offset_encode (b anchor : Box) : Box :=
  mkBox (bx1 b - bx1 anchor) (by1 b - by1 anchor)
        (bx2 b - bx2 anchor) (by2 b - by2 anchor).


(** A decoder that reads the codes as offsets from the anchor. *)
Definition offset_decode (codes anchor : Box) : Box :=
  mkBox (bx1 codes + bx1 anchor) (by1 codes + by1 anchor)
        (bx2 codes + bx2 anchor) (by2 codes + by2 anchor).

(** Stand-ins for the collaborators of [__call__]: a matcher that leaves
    [n] anchors unmatched, IoUs that are all zero, a focal loss of 1 per
    anchor and class, predictions that are already flat. *)
Definition unmatched_matcher (n : nat) (q : list (list Q)) : result (list Z) :=
  Ok (replicate n (-1)%Z).

Definition zero_iou (gts anchors : list Box) : list (list Q) :=
  map (λ _, map (λ _, 0%Q) anchors) gts.

Definition unit_cls_loss (logits : list (list Q)) (lbls : list Z) : list (list Q) :=
  map (λ row, map (λ _, 1%Q) row) logits.

Definition flat_predictions (box_cls box_regression : list (list (list Q) * list Box))
  : list (list Q) * list Box :=
  (concat (map fst box_cls), concat (map snd box_regression)).

(** [__call__] with the stand-ins, GIoU regression loss, [TOPK = 3] and one
    worker, on [n] anchors per image and without IoU-quality predictions. *)
Definition call_with_stand_ins (n : nat)
  (predictions : list (list (list Q) * list Box))
  (targets : list BoxList) (anchors : list (list (list Box))) : result (list Q) :=
  call 3 "giou" 1%Q 1%Q nearest_mean_fit offset_decode offset_encode
    unit_cls_loss (λ _ _, 0%Q) (unmatched_matcher n) (-1)%Z (-2)%Z zero_iou
    (list (list Q) * list Box) flat_predictions (λ _ _, []) None (λ x, x)
    predictions predictions None targets anchors.

(** Two anchors on one level, and two rows of predictions for them. *)
Definition two_anchors : list (list Box) := [[box_of 0 0 8 8; box_of 8 8 16 16]].

Definition two_predictions : list (list (list Q) * list Box) :=
  [([[0%Q]; [0%Q]], [box_of 0 0 1 1; box_of 0 0 1 1])].

(** A matcher that returns given matched indices, whatever the IoUs. *)
Definition fixed_matcher (ms : list Z) (q : list (list Q)) : result (list Z) :=
  Ok ms.






(** * Properties *)

(** ** The result monad *)

Lemma bind_Ok {A B} (m : result A) (f : A → result B) (b : B) :
  m ≫= f = Ok b ↔ ∃ a, m = Ok a ∧ f a = Ok b.
Proof.
  destruct m as [a|e]; simpl; split.
  - intros H. by exists a.
  - by intros (a' & [= <-] & H).
  - done.
  - by intros (a' & [=] & _).
Qed.

Lemma bind_Raise {A B} (m : result A) (f : A → result B) (e : exn) :
  m = Raise e → m ≫= f = Raise e.
Proof. by intros ->. Qed.

Lemma is_ok_not_raise {A} (r : result A) : is_ok r → ¬ is_raise r.
Proof. intros [a ->] [e [=]]. Qed.

Lemma result_ok_or_raise {A} (r : result A) : is_ok r ∨ is_raise r.
Proof. destruct r as [a|e]; [left; by exists a | right; by exists e]. Qed.

(** Splits a hypothesis [m ≫= f = Ok b] into its two halves. *)
Ltac inv_bind H :=
  let a := fresh "a" in
  let Ha := fresh "Ha" in
  apply bind_Ok in H as (a & Ha & H).

Lemma assert_Ok b u : assert b = Ok u ↔ b = true.
Proof. destruct b, u; simpl; split; congruence. Qed.

Lemma getitem_Ok {A} (t : list A) i x : getitem t i = Ok x ↔ t !! i = Some x.
Proof. unfold getitem. destruct (t !! i); split; congruence. Qed.

Lemma getitem_lt {A} (t : list A) i : i < length t → is_ok (getitem t i).
Proof.
  intros Hi. destruct (lookup_lt_is_Some_2 t i Hi) as [x Hx].
  exists x. by apply getitem_Ok.
Qed.

(** ** Tensor primitives *)

Lemma length_slice_le {A} (t : list A) a b : length (slice t a b) ≤ b - a.
Proof. unfold slice. rewrite length_take. lia. Qed.

Lemma length_slice_ge {A} (t : list A) a n j :
  j < n → a + j < length t → j < length (slice t a (a + n)).
Proof. intros Hj H. unfold slice. rewrite length_take, length_drop. lia. Qed.

Lemma lookup_slice {A} (t : list A) a b j x :
  slice t a b !! j = Some x ↔ j < b - a ∧ t !! (a + j) = Some x.
Proof.
  unfold slice. split.
  - intros H. assert (j < b - a).
    { apply lookup_lt_Some in H. rewrite length_take in H. lia. }
    split; [done|]. by rewrite lookup_take_lt, lookup_drop in H.
  - intros [Hj H]. by rewrite lookup_take_lt, lookup_drop.
Qed.

Lemma elem_of_nonzero_from i mask a :
  a ∈ nonzero_from i mask ↔ ∃ j, a = i + j ∧ mask !! j = Some true.
Proof.
  revert i. induction mask as [|b m IH]; intros i; simpl.
  - split; [by intros ?%elem_of_nil | by intros (j & _ & ?)].
  - destruct b.
    + rewrite elem_of_cons, IH. split.
      * intros [->|(j & -> & Hj)]; [exists 0 | exists (S j)]; split; try lia; done.
      * intros ([|j] & -> & Hj); [left; lia | right; exists j; split; [lia|done]].
    + rewrite IH. split.
      * intros (j & -> & Hj). exists (S j). split; [lia|done].
      * intros ([|j] & -> & Hj); [done|]. exists j. split; [lia|done].
Qed.

Lemma elem_of_nonzero mask a : a ∈ nonzero mask ↔ mask !! a = Some true.
Proof.
  unfold nonzero. rewrite elem_of_nonzero_from. split.
  - by intros (j & -> & Hj).
  - intros H. by exists a.
Qed.

Lemma NoDup_nonzero_from i mask : NoDup (nonzero_from i mask).
Proof.
  revert i. induction mask as [|b m IH]; intros i; simpl; [constructor|].
  destruct b; [|apply IH]. constructor; [|apply IH].
  rewrite elem_of_nonzero_from. intros (j & Hj & _). lia.
Qed.

Lemma NoDup_nonzero mask : NoDup (nonzero mask).
Proof. apply NoDup_nonzero_from. Qed.

Lemma nonzero_lt mask a : a ∈ nonzero mask → a < length mask.
Proof. rewrite elem_of_nonzero. apply lookup_lt_Some. Qed.

(** [index_select] reads the tensor at every index, in order. *)
Lemma index_select_Ok {A} (t : list A) idx xs :
  index_select t idx = Ok xs ↔ Forall2 (λ i x, t !! i = Some x) idx xs.
Proof.
  revert xs. induction idx as [|i idx IH]; intros xs; simpl.
  - split; [intros [= <-]; constructor | by intros ->%Forall2_nil_inv_l].
  - split.
    + intros H. inv_bind H. inv_bind H. injection H as <-.
      constructor; [by apply getitem_Ok | by apply IH].
    + intros (x & xs' & Hx & Hxs & ->)%Forall2_cons_inv_l.
      apply getitem_Ok in Hx. rewrite Hx. simpl.
      apply IH in Hxs. by rewrite Hxs.
Qed.

Lemma index_select_in_range {A} (t : list A) idx :
  Forall (λ i, i < length t) idx → is_ok (index_select t idx).
Proof.
  induction 1 as [|i idx Hi _ [xs IH]]; simpl; [by exists []|].
  destruct (getitem_lt t i Hi) as [x ->]. simpl. rewrite IH. simpl.
  by eexists.
Qed.

Lemma index_select_length {A} (t : list A) idx xs :
  index_select t idx = Ok xs → length xs = length idx.
Proof. intros H%index_select_Ok. symmetry. by eapply Forall2_length. Qed.

Lemma index_select_lookup {A} (t : list A) idx xs k i :
  index_select t idx = Ok xs → idx !! k = Some i → xs !! k = t !! i.
Proof.
  intros H%index_select_Ok Hk.
  destruct (Forall2_lookup_l _ _ _ _ _ H Hk) as (x & Hx & Htx). congruence.
Qed.

Lemma index_select_elem_of {A} (t : list A) idx xs x :
  index_select t idx = Ok xs → x ∈ xs ↔ ∃ i, i ∈ idx ∧ t !! i = Some x.
Proof.
  intros H%index_select_Ok. split.
  - intros (k & Hk)%list_elem_of_lookup.
    destruct (Forall2_lookup_r _ _ _ _ _ H Hk) as (i & Hi & Hti).
    exists i. split; [|done]. apply list_elem_of_lookup. by exists k.
  - intros (i & (k & Hk)%list_elem_of_lookup & Hti).
    destruct (Forall2_lookup_l _ _ _ _ _ H Hk) as (x' & Hx' & Htx').
    apply list_elem_of_lookup. exists k. congruence.
Qed.

Lemma index_select_take {A} (t : list A) idx xs n :
  index_select t idx = Ok xs → index_select t (take n idx) = Ok (take n xs).
Proof. rewrite !index_select_Ok. apply Forall2_take. Qed.

(** [index_put] writes the value at the listed positions and nowhere else. *)
Lemma index_put_Ok {A} (t : list A) idx v :
  Forall (λ i, i < length t) idx →
  ∃ t', index_put t idx v = Ok t' ∧ length t' = length t ∧
        ∀ a, t' !! a = if decide (a ∈ idx) then (λ _, v) <$> t !! a else t !! a.
Proof.
  intros Hidx. revert t Hidx.
  induction idx as [|i idx IH]; intros t Hidx; simpl.
  - exists t. split_and!; [done..|]. intros a.
    destruct (decide (a ∈ [])) as [?%elem_of_nil|]; done.
  - apply Forall_cons in Hidx as [Hi Hidx].
    rewrite decide_True by done.
    destruct (IH (<[i:=v]> t)) as (t' & Ht' & Hlen & Hlk).
    { by rewrite length_insert. }
    exists t'. rewrite length_insert in Hlen. split_and!; [done..|].
    intros a. rewrite Hlk.
    destruct (decide (a ∈ idx)) as [Hin|Hnin].
    + rewrite decide_True by (by right).
      destruct (decide (i = a)) as [->|Hne].
      * rewrite list_lookup_insert_eq by done.
        destruct (lookup_lt_is_Some_2 t a Hi) as [x ->]. done.
      * by rewrite list_lookup_insert_ne.
    + destruct (decide (i = a)) as [->|Hne].
      * rewrite decide_True by (by left).
        rewrite list_lookup_insert_eq by done.
        destruct (lookup_lt_is_Some_2 t a Hi) as [x ->]. done.
      * rewrite decide_False by (intros [?|?]%elem_of_cons; congruence).
        by rewrite list_lookup_insert_ne.
Qed.

Lemma index_put_inv {A} (t : list A) idx v t' :
  index_put t idx v = Ok t' → Forall (λ i, i < length t) idx.
Proof.
  revert t. induction idx as [|i idx IH]; intros t; simpl; [constructor|].
  destruct (decide (i < length t)); [|done]. intros H.
  constructor; [done|]. apply IH in H. by rewrite length_insert in H.
Qed.

(** ** Sorting and top-k *)

#[global] Instance le_fst_total : Total le_fst.
Proof.
  intros p q. unfold le_fst.
  destruct (Qlt_le_dec p.1 q.1) as [H|H].
  - left. apply Is_true_true, Qle_bool_iff, Qlt_le_weak, H.
  - right. apply Is_true_true, Qle_bool_iff, H.
Qed.

#[global] Instance le_fst_trans : Transitive le_fst.
Proof.
  intros p q r. unfold le_fst.
  rewrite !Is_true_true, !Qle_bool_iff. apply Qle_trans.
Qed.

Lemma le_fst_Qle p q : le_fst p q ↔ (p.1 <= q.1)%Q.
Proof. unfold le_fst. by rewrite Is_true_true, Qle_bool_iff. Qed.

Lemma elem_of_enumerate t x i : (x, i) ∈ enumerate t ↔ t !! i = Some x.
Proof.
  unfold enumerate. rewrite elem_of_lookup_imap. split.
  - by intros (j & y & [= -> ->] & H).
  - intros H. by exists i, x.
Qed.

Lemma enumerate_snd_from (t : list Q) n :
  (imap (λ i x, (x, n + i)) t).*2 = seq n (length t).
Proof.
  revert n. induction t as [|x t IH]; intros n; simpl; [done|].
  f_equal; [lia|]. rewrite <- (IH (S n)). f_equal.
  apply imap_ext. intros i y _. simpl. f_equal. lia.
Qed.

Lemma enumerate_snd t : (enumerate t).*2 = seq 0 (length t).
Proof. apply (enumerate_snd_from t 0). Qed.

Lemma argsort_Permutation t : argsort t ≡ₚ enumerate t.
Proof. apply merge_sort_Permutation. Qed.

Lemma argsort_StronglySorted t : StronglySorted le_fst (argsort t).
Proof. apply StronglySorted_merge_sort; apply _. Qed.

Lemma elem_of_argsort t x i : (x, i) ∈ argsort t ↔ t !! i = Some x.
Proof. by rewrite argsort_Permutation, elem_of_enumerate. Qed.

Lemma length_argsort t : length (argsort t) = length t.
Proof.
  rewrite argsort_Permutation. unfold enumerate. by rewrite length_imap.
Qed.

Lemma argsort_inds_Permutation t : (argsort t).*2 ≡ₚ seq 0 (length t).
Proof. by rewrite argsort_Permutation, enumerate_snd. Qed.

Lemma argsort_inds_NoDup t : NoDup (argsort t).*2.
Proof. rewrite argsort_inds_Permutation. apply NoDup_seq. Qed.

Lemma argsort_inds_lt t i : i ∈ (argsort t).*2 → i < length t.
Proof. rewrite argsort_inds_Permutation, elem_of_seq. lia. Qed.

(** The sorted values are the tensor read through the sorting indices. *)
Lemma argsort_values t : index_select t (argsort t).*2 = Ok (argsort t).*1.
Proof.
  apply index_select_Ok.
  assert (Forall (λ p, t !! p.2 = Some p.1) (argsort t)) as H.
  { apply Forall_forall. intros [x i] Hp. by apply elem_of_argsort. }
  induction H as [|p l Hp _ IH]; simpl; constructor; done.
Qed.

(** The ranks of [sort] are ascending in value. *)
Lemma argsort_ascending t r1 r2 p1 p2 :
  argsort t !! r1 = Some p1 → argsort t !! r2 = Some p2 → r1 ≤ r2 →
  (p1.1 <= p2.1)%Q.
Proof.
  intros H1 H2 Hle.
  destruct (decide (r1 = r2)) as [->|Hne].
  { assert (p1 = p2) as -> by congruence. apply Qle_refl. }
  pose proof (argsort_StronglySorted t) as HS.
  rewrite <- (take_drop (S r1) (argsort t)) in HS.
  apply StronglySorted_app in HS as (HS & _ & _).
  apply le_fst_Qle, HS.
  - apply list_elem_of_lookup. exists r1. rewrite lookup_take_lt by lia. done.
  - apply list_elem_of_lookup. exists (r2 - S r1).
    rewrite lookup_drop. by replace (S r1 + (r2 - S r1)) with r2 by lia.
Qed.

(** [topk] returns [k] distinct positions, and no position left out has
    a smaller value than a position returned. *)
Lemma topk_smallest_spec t k idx :
  topk_smallest t k = Ok idx →
  length idx = k ∧ NoDup idx ∧ (∀ i, i ∈ idx → i < length t) ∧
  ∀ i j x y, i ∈ idx → j ∉ idx → t !! i = Some x → t !! j = Some y →
             (x <= y)%Q.
Proof.
  unfold topk_smallest. destruct (decide (k ≤ length t)) as [Hk|]; [|done].
  intros [= <-]. split_and!.
  - rewrite length_take, length_fmap, length_argsort. lia.
  - eapply sublist_NoDup; [apply argsort_inds_NoDup|apply sublist_take].
  - intros i Hi%subseteq_take. by apply argsort_inds_lt.
  - intros i j x y Hi Hj Hx Hy.
    rewrite <- fmap_take in Hi, Hj.
    apply list_elem_of_fmap in Hi as ([x' i'] & -> & Hi). simpl in *.
    assert (x' = x) as ->.
    { apply subseteq_take, elem_of_argsort in Hi. congruence. }
    apply elem_of_argsort in Hy.
    rewrite <- (take_drop k (argsort t)) in Hy.
    apply elem_of_app in Hy as [Hy|Hy].
    { exfalso. apply Hj. apply list_elem_of_fmap. by exists (y, j). }
    pose proof (argsort_StronglySorted t) as HS.
    rewrite <- (take_drop k (argsort t)) in HS.
    apply StronglySorted_app in HS as (HS & _ & _).
    apply (le_fst_Qle (x, i') (y, j)), HS; done.
Qed.

Lemma topk_smallest_is_ok t k : k ≤ length t → is_ok (topk_smallest t k).
Proof. intros H. unfold topk_smallest. rewrite decide_True by done. by eexists. Qed.

(** ** Candidate selection *)

Section CandidateFacts.

Variable TOPK : nat.
Variable labels_all : list Z.
Variable loss_all : list Q.
Variable matched : list Z.

Local Abbreviation elig := (eligible labels_all matched).
Local Abbreviation of_level := (candidates_of_level TOPK labels_all loss_all matched).
Local Abbreviation over_levels := (candidates_over_levels TOPK labels_all loss_all matched).

(** The positions found by [nonzero] on a level are its eligible anchors. *)
Lemma match_idx_eligible gt s n j :
  j ∈ nonzero (match_mask gt (slice matched s (s + n)) (slice labels_all s (s + n)))
  ↔ j < n ∧ elig gt (s + j).
Proof.
  rewrite elem_of_nonzero. unfold match_mask, eligible.
  rewrite lookup_zip_with_Some. split.
  - intros (m & l & Hb & Hm & Hl).
    apply lookup_slice in Hm as [Hj Hm]. apply lookup_slice in Hl as [_ Hl].
    symmetry in Hb. apply andb_true_iff in Hb as [Hb1 Hb2].
    apply bool_decide_eq_true in Hb1 as ->. apply bool_decide_eq_true in Hb2.
    split; [lia|]. split; [done|]. by exists l.
  - intros (Hj & Hm & l & Hl & Hpos).
    exists (Z.of_nat gt), l. split_and!.
    + symmetry. apply andb_true_iff.
      split; apply bool_decide_eq_true; done.
    + apply lookup_slice. split; [lia|done].
    + apply lookup_slice. split; [lia|done].
Qed.

Lemma match_idx_count gt s n :
  length (nonzero (match_mask gt (slice matched s (s + n)) (slice labels_all s (s + n))))
  = length (filter (elig gt) (seq s n)).
Proof.
  set (mi := nonzero _).
  assert (((λ j, s + j) <$> mi) ≡ₚ filter (elig gt) (seq s n)) as HP.
  { apply NoDup_Permutation.
    - apply NoDup_fmap_2; [intros ???; lia | apply NoDup_nonzero].
    - apply NoDup_filter, NoDup_seq.
    - intros a. rewrite list_elem_of_fmap, list_elem_of_filter, elem_of_seq.
      split.
      + intros (j & -> & Hj). apply match_idx_eligible in Hj as [? ?].
        split; [done|lia].
      + intros [He Ha]. exists (a - s). split; [lia|].
        apply match_idx_eligible. replace (s + (a - s)) with a by lia.
        split; [lia|done]. }
  rewrite <- HP. by rewrite length_fmap.
Qed.

(** One level: the chunk holds the [min(count, TOPK)] eligible anchors of
    the level with the lowest losses. *)
Lemma candidates_of_level_spec gt s n chunk :
  of_level gt s n = Ok chunk →
  (∀ a, a ∈ concat chunk → in_level s n a ∧ elig gt a) ∧
  NoDup (concat chunk) ∧
  length (concat chunk) = TOPK `min` length (filter (elig gt) (seq s n)) ∧
  (∀ a b x y, a ∈ concat chunk → in_level s n b → elig gt b → b ∉ concat chunk →
              loss_all !! a = Some x → loss_all !! b = Some y → (x <= y)%Q) ∧
  (chunk = [] ↔ filter (elig gt) (seq s n) = []).
Proof.
  unfold candidates_of_level.
  pose proof (match_idx_eligible gt s n) as Hmi.
  pose proof (match_idx_count gt s n) as Hcnt.
  set (mi := nonzero _) in *.
  destruct (decide (0 < length mi)) as [Hpos|Hzero].
  2:{ intros [= <-]. simpl. split_and!.
      - by intros a ?%elem_of_nil.
      - constructor.
      - rewrite <- Hcnt. lia.
      - by intros a b x y ?%elem_of_nil.
      - split; [|done]. intros _. apply length_zero_iff_nil. lia. }
  intros H. inv_bind H. rename a into vals.
  inv_bind H. rename a into tk. inv_bind H. rename a into sel.
  injection H as <-. simpl. rewrite app_nil_r.
  apply topk_smallest_spec in Ha0 as (Hlen & Hnd & Hlt & Hlow).
  pose proof (index_select_length _ _ _ Ha) as Hvl.
  pose proof (index_select_length _ _ _ Ha1) as Hsl.
  assert (∀ a, a ∈ map (λ i, i + s) sel ↔
               ∃ p j, p ∈ tk ∧ mi !! p = Some j ∧ a = s + j) as Hin.
  { intros a. rewrite list_elem_of_fmap. split.
    - intros (j & -> & Hj).
      apply (index_select_elem_of _ _ _ j Ha1) in Hj as (p & Hp & Hpj).
      exists p, j. split_and!; [done..|lia].
    - intros (p & j & Hp & Hpj & ->). exists j. split; [lia|].
      apply (index_select_elem_of _ _ _ j Ha1). by exists p. }
  split_and!.
  - intros a (p & j & Hp & Hpj & ->)%Hin.
    apply list_elem_of_lookup_2, Hmi in Hpj as [? ?].
    split; [unfold in_level; lia|done].
  - apply NoDup_fmap_2; [intros ???; lia|].
    apply NoDup_alt. intros k1 k2 j Hk1 Hk2.
    apply index_select_Ok in Ha1.
    destruct (Forall2_lookup_r _ _ _ _ _ Ha1 Hk1) as (p1 & Hp1 & Hj1).
    destruct (Forall2_lookup_r _ _ _ _ _ Ha1 Hk2) as (p2 & Hp2 & Hj2).
    assert (p1 = p2) as ->.
    { eapply NoDup_lookup; [apply NoDup_nonzero|done..]. }
    eapply NoDup_lookup; done.
  - rewrite length_fmap, Hsl, Hlen, Hcnt. lia.
  - intros a b x y (p & j & Hp & Hpj & ->)%Hin Hb He Hnb Hx Hy.
    assert (b - s ∈ mi) as (p' & Hp')%list_elem_of_lookup.
    { apply Hmi. replace (s + (b - s)) with b by (unfold in_level in Hb; lia).
      split; [unfold in_level in Hb; lia|done]. }
    assert (p' ∉ tk) as Hp'tk.
    { intros Hp'tk. apply Hnb, Hin. exists p', (b - s).
      split_and!; [done..|unfold in_level in Hb; lia]. }
    pose proof (list_elem_of_lookup_2 _ _ _ Hpj) as [Hjn _]%Hmi.
    apply (Hlow p p' x y Hp Hp'tk).
    + rewrite (index_select_lookup _ _ _ _ _ Ha Hpj).
      apply lookup_slice. split; [lia|done].
    + rewrite (index_select_lookup _ _ _ _ _ Ha Hp').
      apply lookup_slice. unfold in_level in Hb.
      split; [lia|]. by replace (s + (b - s)) with b by lia.
  - split; [done|]. intros Hnil. rewrite Hnil in Hcnt. simpl in Hcnt. lia.
Qed.

Lemma filter_all {A} (P : A → Prop) `{∀ x, Decision (P x)} (l : list A) :
  (∀ x, x ∈ l → P x) → filter P l = l.
Proof.
  induction l as [|x l IH]; intros HP; [done|].
  rewrite filter_cons_True by (apply HP; by left).
  f_equal. apply IH. intros y Hy. apply HP. by right.
Qed.

Lemma filter_none {A} (P : A → Prop) `{∀ x, Decision (P x)} (l : list A) :
  (∀ x, x ∈ l → ¬ P x) → filter P l = [].
Proof.
  induction l as [|x l IH]; intros HP; [done|].
  rewrite filter_cons_False by (apply HP; by left).
  apply IH. intros y Hy. apply HP. by right.
Qed.

(** All levels: the chunks of the levels lie in disjoint ranges, so the
    property of every level carries over to the concatenation. *)
Lemma candidates_over_levels_spec gt sizes s chunks :
  over_levels gt sizes s = Ok chunks →
  (∀ a, a ∈ concat chunks → in_level s (sum_list sizes) a ∧ elig gt a) ∧
  NoDup (concat chunks) ∧
  length (concat chunks) ≤ length sizes * TOPK ∧
  (∀ k n, sizes !! k = Some n →
     length (filter (in_level (s + level_start sizes k) n) (concat chunks))
     = TOPK `min` length (filter (elig gt) (seq (s + level_start sizes k) n)) ∧
     ∀ a b x y, a ∈ concat chunks →
       in_level (s + level_start sizes k) n a →
       in_level (s + level_start sizes k) n b → elig gt b →
       b ∉ concat chunks →
       loss_all !! a = Some x → loss_all !! b = Some y → (x <= y)%Q) ∧
  (chunks = [] ↔ ∀ a, in_level s (sum_list sizes) a → ¬ elig gt a).
Proof.
  revert s chunks. induction sizes as [|n sizes IH]; intros s chunks; simpl.
  { intros [= <-]. simpl. split_and!.
    - by intros a ?%elem_of_nil.
    - constructor.
    - lia.
    - intros k n Hk. by rewrite lookup_nil in Hk.
    - split; [|done]. intros _ a Ha. unfold in_level in Ha. simpl in Ha. lia. }
  intros H. inv_bind H. rename a into chunk. inv_bind H. rename a into rest.
  injection H as <-.
  apply candidates_of_level_spec in Ha as (Hc1 & Hc2 & Hc3 & Hc4 & Hc5).
  apply IH in Ha0 as (Hr1 & Hr2 & Hr3 & Hr4 & Hr5). clear IH.
  rewrite concat_app.
  assert (∀ a, a ∈ concat chunk → a < s + n) as Hclt.
  { intros a [Ha _]%Hc1. unfold in_level in Ha. lia. }
  assert (∀ a, a ∈ concat rest → s + n ≤ a) as Hrge.
  { intros a [Ha _]%Hr1. unfold in_level in Ha. lia. }
  split_and!.
  - intros a [Ha|Ha]%elem_of_app.
    + destruct (Hc1 a Ha) as [Hl He]. split; [|done].
      unfold in_level in *. lia.
    + destruct (Hr1 a Ha) as [Hl He]. split; [|done].
      unfold in_level in *. lia.
  - apply NoDup_app. split_and!; [done| |done].
    intros a Ha1 Ha2. specialize (Hclt a Ha1). specialize (Hrge a Ha2). lia.
  - rewrite length_app.
    assert (length (concat chunk) ≤ TOPK) by lia. lia.
  - intros [|k] m Hk; simpl in Hk.
    + injection Hk as ->. unfold level_start. simpl. rewrite Nat.add_0_r.
      rewrite filter_app, (filter_all _ (concat chunk)), (filter_none _ (concat rest)).
      2:{ intros a Ha Hl. specialize (Hrge a Ha). unfold in_level in Hl. lia. }
      2:{ intros a Ha. by apply Hc1. }
      rewrite app_nil_r. split; [done|].
      intros a b x y Ha Hla Hlb Hb Hnb Hx Hy.
      apply elem_of_app in Ha as [Ha|Ha].
      2:{ specialize (Hrge a Ha). unfold in_level in Hla. lia. }
      eapply (Hc4 a b); try done. intros Hbc. apply Hnb, elem_of_app. by left.
    + assert (s + level_start (n :: sizes) (S k) = s + n + level_start sizes k)
        as -> by (unfold level_start; simpl; lia).
      destruct (Hr4 k m Hk) as [Hcount Hlow].
      rewrite filter_app, (filter_none _ (concat chunk)).
      2:{ intros a Ha Hl. specialize (Hclt a Ha). unfold in_level in Hl. lia. }
      split; [done|].
      intros a b x y Ha Hla Hlb Hb Hnb Hx Hy.
      apply elem_of_app in Ha as [Ha|Ha].
      { specialize (Hclt a Ha). unfold in_level in Hla. lia. }
      eapply (Hlow a b); try done. intros Hbc. apply Hnb, elem_of_app. by right.
  - split.
    + intros [Hchunk Hrest]%app_eq_nil a Hl He.
      destruct (decide (a < s + n)) as [Hlt|Hge].
      * apply Hc5 in Hchunk.
        eapply (filter_nil_not_elem_of _ _ a Hchunk He).
        apply elem_of_seq. unfold in_level in Hl. lia.
      * apply (proj1 Hr5 Hrest a); [|done]. unfold in_level in *. lia.
    + intros Hno.
      assert (chunk = [] ∧ rest = []) as [-> ->]; [|done]. split.
      * apply Hc5. apply filter_none. intros a Ha%elem_of_seq.
        apply Hno. unfold in_level. lia.
      * apply Hr5. intros a Hl. apply Hno. unfold in_level in *. lia.
Qed.

(** With [TOPK] positive, a level that has an eligible anchor
    contributes a candidate. *)
Lemma candidates_over_levels_nonempty gt sizes s chunks :
  0 < TOPK → over_levels gt sizes s = Ok chunks → chunks ≠ [] →
  0 < length (concat chunks).
Proof.
  intros HK. revert s chunks.
  induction sizes as [|n sizes IH]; intros s chunks; simpl.
  { by intros [= <-]. }
  intros H Hne. inv_bind H. rename a into chunk. inv_bind H. rename a into rest.
  injection H as <-. rewrite concat_app, length_app.
  destruct chunk as [|c chunk].
  - simpl in *. apply (IH _ _ Ha0 Hne).
  - apply candidates_of_level_spec in Ha as (_ & _ & Hc3 & _ & Hc5).
    destruct (filter (elig gt) (seq s n)) as [|e l].
    + by destruct Hc5 as [_ Hc5]; specialize (Hc5 eq_refl).
    + rewrite Hc3. simpl. lia.
Qed.

(** The selection reads the losses only at eligible anchors: it returns
    whenever the loss tensor is as long as the matched indices. *)
Lemma candidates_of_level_ok gt s n :
  length matched ≤ length loss_all → is_ok (of_level gt s n).
Proof.
  intros Hlen. unfold candidates_of_level.
  pose proof (match_idx_eligible gt s n) as Hmi.
  set (mi := nonzero _) in *.
  destruct (decide (0 < length mi)); [|by eexists].
  destruct (index_select_in_range (slice loss_all s (s + n)) mi) as [vals Hvals].
  { apply Forall_forall. intros j [Hj [Hm _]]%Hmi.
    apply lookup_lt_Some in Hm.
    apply length_slice_ge; lia. }
  rewrite Hvals. simpl.
  pose proof (index_select_length _ _ _ Hvals) as Hvl.
  destruct (topk_smallest_is_ok vals (length mi `min` TOPK)) as [tk Htk]; [lia|].
  rewrite Htk. simpl.
  apply topk_smallest_spec in Htk as (_ & _ & Hlt & _).
  destruct (index_select_in_range mi tk) as [sel Hsel].
  { apply Forall_forall. intros p Hp%Hlt. lia. }
  rewrite Hsel. simpl. by eexists.
Qed.

Lemma candidates_over_levels_ok gt sizes s :
  length matched ≤ length loss_all → is_ok (over_levels gt sizes s).
Proof.
  intros Hlen. revert s. induction sizes as [|n sizes IH]; intros s; simpl.
  - by eexists.
  - destruct (candidates_of_level_ok gt s n Hlen) as [chunk ->]. simpl.
    destruct (IH (s + n)) as [rest ->]. simpl. by eexists.
Qed.

End CandidateFacts.

(** ** The candidate sets of one image *)

Section SelectionFacts.

Variable TOPK : nat.
Variable targets_per_im : BoxList.
Variable anchors_im : list (list Box).
Variable labels_all : list Z.
Variable loss_all : list Q.
Variable matched : list Z.

Local Abbreviation elig := (eligible labels_all matched).
Local Abbreviation sizes := (num_anchors_per_level anchors_im).
Local Abbreviation cand_of :=
  (candidate_idxs_of TOPK anchors_im labels_all loss_all matched).
Local Abbreviation sel_loop :=
  (candidate_idxs_loop TOPK anchors_im labels_all loss_all matched).
Local Abbreviation sel_cands :=
  (select_candidates TOPK targets_per_im anchors_im labels_all loss_all matched).

Lemma sum_list_sizes : sum_list sizes = length (concat anchors_im).
Proof.
  unfold num_anchors_per_level.
  induction anchors_im as [|l ls IH]; simpl; [done|].
  rewrite length_app. by rewrite IH.
Qed.

Lemma candidate_idxs_of_spec gt c :
  cand_of gt = Ok c →
  (∀ a, a ∈ candidate_list c → a < length (concat anchors_im) ∧ elig gt a) ∧
  NoDup (candidate_list c) ∧
  length (candidate_list c) ≤ length anchors_im * TOPK ∧
  (∀ k n, sizes !! k = Some n →
     length (filter (in_level (level_start sizes k) n) (candidate_list c))
     = TOPK `min` length (filter (elig gt) (seq (level_start sizes k) n)) ∧
     ∀ a b x y, a ∈ candidate_list c →
       in_level (level_start sizes k) n a →
       in_level (level_start sizes k) n b → elig gt b →
       b ∉ candidate_list c →
       loss_all !! a = Some x → loss_all !! b = Some y → (x <= y)%Q) ∧
  (c = None ↔ ∀ a, a < length (concat anchors_im) → ¬ elig gt a) ∧
  (0 < TOPK → c ≠ None → 0 < length (candidate_list c)).
Proof.
  unfold candidate_idxs_of. intros H. inv_bind H. rename a into chunks.
  pose proof (λ HK, candidates_over_levels_nonempty _ _ _ _ _ _ _ _ HK Ha) as Hne.
  apply candidates_over_levels_spec in Ha as (H1 & H2 & H3 & H4 & H5).
  assert (candidate_list c = concat chunks) as ->.
  { destruct chunks; injection H as <-; done. }
  rewrite sum_list_sizes in H1, H5.
  unfold num_anchors_per_level in H3. rewrite length_fmap in H3.
  split_and!; [|done..| |].
  - intros a [Hl He]%H1. split; [|done]. unfold in_level in Hl. lia.
  - assert (c = None ↔ chunks = []) as ->.
    { destruct chunks; injection H as <-; done. }
    rewrite H5. split.
    + intros Hno a Ha. apply Hno. unfold in_level. lia.
    + intros Hno a Hl. apply Hno. unfold in_level in Hl. lia.
  - intros HK Hc. apply Hne; [done|]. intros ->. by injection H as <-.
Qed.

Lemma candidate_idxs_of_ok gt :
  length matched ≤ length loss_all → is_ok (cand_of gt).
Proof.
  intros Hlen. unfold candidate_idxs_of.
  destruct (candidates_over_levels_ok TOPK labels_all loss_all matched gt sizes 0 Hlen)
    as [chunks ->].
  simpl. destruct chunks; by eexists.
Qed.

Lemma candidate_idxs_loop_spec gts cs :
  sel_loop gts = Ok cs ↔ Forall2 (λ gt c, cand_of gt = Ok c) gts cs.
Proof.
  revert cs. induction gts as [|gt gts IH]; intros cs; simpl.
  - split; [intros [= <-]; constructor | by intros ->%Forall2_nil_inv_l].
  - split.
    + intros H. inv_bind H. inv_bind H. injection H as <-.
      constructor; [done|by apply IH].
    + intros (c & cs' & Hc & Hcs & ->)%Forall2_cons_inv_l.
      rewrite Hc. simpl. apply IH in Hcs. by rewrite Hcs.
Qed.

(** [candidate_idxs] has one entry per object, the one computed for it. *)
Lemma select_candidates_spec cands :
  sel_cands = Ok cands →
  length cands = length (bbox targets_per_im) ∧
  ∀ gt c, cands !! gt = Some c → cand_of gt = Ok c.
Proof.
  unfold select_candidates. intros H%candidate_idxs_loop_spec. split.
  - apply Forall2_length in H. by rewrite length_seq in H.
  - intros gt c Hc.
    destruct (Forall2_lookup_r _ _ _ _ _ H Hc) as (gt' & Hgt' & Hok).
    apply lookup_seq in Hgt' as [-> _]. done.
Qed.

Lemma select_candidates_ok :
  length matched ≤ length loss_all → is_ok sel_cands.
Proof.
  intros Hlen. unfold select_candidates.
  induction (seq 0 (num_gt targets_per_im)) as [|gt gts [cs IH]]; simpl.
  - by eexists.
  - destruct (candidate_idxs_of_ok gt Hlen) as [c ->]. simpl.
    rewrite IH. simpl. by eexists.
Qed.

(** An anchor has one matched index, so the candidate sets of two
    objects never share an anchor. *)
Lemma candidates_disjoint cands g1 g2 c1 c2 a :
  sel_cands = Ok cands →
  cands !! g1 = Some c1 → cands !! g2 = Some c2 → g1 ≠ g2 →
  a ∈ candidate_list c1 → a ∉ candidate_list c2.
Proof.
  intros [_ Hs]%select_candidates_spec H1 H2 Hne Ha1 Ha2.
  apply Hs, candidate_idxs_of_spec in H1 as (H1 & _).
  apply Hs, candidate_idxs_of_spec in H2 as (H2 & _).
  destruct (H1 a Ha1) as [_ [Hm1 _]]. destruct (H2 a Ha2) as [_ [Hm2 _]].
  rewrite Hm1 in Hm2. injection Hm2 as Hm2. lia.
Qed.

End SelectionFacts.

(** ** The loop over the objects *)

Lemma index_put_spec {A} (t : list A) idx v t' :
  index_put t idx v = Ok t' →
  length t' = length t ∧
  ∀ a, t' !! a = if decide (a ∈ idx) then (λ _, v) <$> t !! a else t !! a.
Proof.
  intros H. pose proof (index_put_inv _ _ _ _ H) as Hr.
  destruct (index_put_Ok t idx v Hr) as (t'' & Ht'' & Hlen & Hlk).
  assert (t' = t'') as -> by congruence. done.
Qed.

Lemma Qmax_cases x y : Qmax x y = x ∨ Qmax x y = y.
Proof.
  unfold Qmax, GenericMinMax.gmax. destruct (x ?= y)%Q; auto.
Qed.

Lemma foldl_Qmax_spec x t :
  (foldl Qmax x t = x ∨ foldl Qmax x t ∈ t) ∧
  (x <= foldl Qmax x t)%Q ∧ ∀ y, y ∈ t → (y <= foldl Qmax x t)%Q.
Proof.
  revert x. induction t as [|z t IH]; intros x; simpl.
  - split_and!; [by left|apply Qle_refl|by intros y ?%elem_of_nil].
  - destruct (IH (Qmax x z)) as (Hin & Hle & Hall). split_and!.
    + destruct Hin as [Hin|Hin].
      * rewrite Hin. destruct (Qmax_cases x z) as [->| ->]; [by left|].
        right. by left.
      * right. by right.
    + eapply Qle_trans; [apply Q.le_max_l|apply Hle].
    + intros y [->|Hy]%elem_of_cons; [|by apply Hall].
      eapply Qle_trans; [apply Q.le_max_r|apply Hle].
Qed.

Lemma tensor_max_spec t m :
  tensor_max t = Ok m → m ∈ t ∧ ∀ y, y ∈ t → (y <= m)%Q.
Proof.
  destruct t as [|x t]; simpl; [done|]. intros [= <-].
  destruct (foldl_Qmax_spec x t) as (Hin & Hle & Hall). split.
  - destruct Hin as [-> | Hin]; [by left | by right].
  - intros y [->|Hy]%elem_of_cons; [done | by apply Hall].
Qed.

Lemma tensor_max_is_ok t : 0 < length t → is_ok (tensor_max t).
Proof. destruct t; simpl; [lia|]. by eexists. Qed.

Lemma tensor_min_is_ok t : 0 < length t → is_ok (tensor_min t).
Proof. destruct t; simpl; [lia|]. by eexists. Qed.

Lemma foldl_min_spec x t :
  (foldl Nat.min x t = x ∨ foldl Nat.min x t ∈ t) ∧
  foldl Nat.min x t ≤ x ∧ ∀ y, y ∈ t → foldl Nat.min x t ≤ y.
Proof.
  revert x. induction t as [|z t IH]; intros x; simpl.
  - split_and!; [by left|done|by intros y ?%elem_of_nil].
  - destruct (IH (x `min` z)) as (Hin & Hle & Hall). split_and!.
    + destruct Hin as [Hin|Hin].
      * rewrite Hin. destruct (Nat.min_dec x z) as [->| ->]; [by left|].
        right. by left.
      * right. by right.
    + lia.
    + intros y [->|Hy]%elem_of_cons; [lia|by apply Hall].
Qed.

Lemma tensor_min_nat_spec t m :
  tensor_min_nat t = Ok m → m ∈ t ∧ ∀ y, y ∈ t → m ≤ y.
Proof.
  destruct t as [|x t]; simpl; [done|]. intros [= <-].
  destruct (foldl_min_spec x t) as (Hin & Hle & Hall). split.
  - destruct Hin as [-> | Hin]; [by left | by right].
  - intros y [->|Hy]%elem_of_cons; [done | by apply Hall].
Qed.

Lemma elem_of_filter_mask {A} (t : list A) mask x :
  x ∈ filter_mask t mask ↔ ∃ r, t !! r = Some x ∧ mask !! r = Some true.
Proof.
  revert mask. induction t as [|y t IH]; intros mask; simpl.
  { split; [by intros ?%elem_of_nil | by intros (r & ? & _)]. }
  destruct mask as [|b mask].
  { split; [by intros ?%elem_of_nil | by intros (r & _ & ?)]. }
  destruct b.
  - rewrite elem_of_cons, IH. split.
    + intros [->|(r & Hr & Hm)]; [by exists 0 | by exists (S r)].
    + intros ([|r] & Hr & Hm); simpl in *; [left; congruence|right; by exists r].
  - rewrite IH. split.
    + intros (r & Hr & Hm). by exists (S r).
    + intros ([|r] & Hr & Hm); simpl in *; [done|by exists r].
Qed.

Lemma filter_mask_subseteq {A} (t : list A) mask x :
  x ∈ filter_mask t mask → x ∈ t.
Proof.
  intros (r & Hr & _)%elem_of_filter_mask. by eapply list_elem_of_lookup_2.
Qed.

Section LoopFacts.

Variable gmm : Q * Q → list Q → result fit_result.
Variable targets_per_im : BoxList.
Variable loss_all : list Q.

Local Abbreviation partition := (partition_candidates gmm loss_all).
Local Abbreviation fit := (fit_of gmm loss_all).
Local Abbreviation step := (paa_step gmm targets_per_im loss_all).
Local Abbreviation loop := (paa_loop gmm targets_per_im loss_all).
Local Abbreviation pos_of := (positives_of gmm loss_all).
Local Abbreviation neg_of := (negatives_of gmm loss_all).

(** The branch for zero or one candidate never calls the fit. *)
Lemma partition_single cand grey :
  length cand ≤ 1 → partition cand grey = Ok (SelInt 0, None, None).
Proof.
  intros H. unfold partition_candidates. rewrite decide_False by lia. done.
Qed.


(** No candidate in component 0: every rank is selected. *)
Lemma partition_no_fg cand grey closs comps scores :
  1 < length cand → index_select loss_all cand = Ok closs →
  fit cand = Ok (comps, scores) →
  (∀ r, comps !! r ≠ Some 0) →
  partition cand grey = Ok (SelIdx (sort closs).2, None, None).
Proof.
  intros Hlen Hcl Hfit Hno. unfold partition_candidates, fit_of in *.
  rewrite decide_True by done. rewrite Hcl in *. simpl in *.
  destruct (tensor_min _) as [lo|]; simpl in *; [|done].
  destruct (tensor_max _) as [hi|]; simpl in *; [|done].
  rewrite Hfit. simpl.
  rewrite decide_False; [done|].
  destruct (nonzero _) as [|r l] eqn:Hnz; simpl; [lia|]. exfalso.
  assert (r ∈ nonzero (map (λ c, bool_decide (c = 0)) comps)) as Hr.
  { rewrite Hnz. by left. }
  apply elem_of_nonzero in Hr. rewrite list_lookup_fmap in Hr.
  destruct (comps !! r) as [c|] eqn:Hc; simpl in Hr; [|done].
  injection Hr as Hr. apply bool_decide_eq_true in Hr as ->. by apply (Hno r).
Qed.

(** Some candidate in component 0: the ranks up to the cutoff are
    selected as positive, and ranks of the sorted order as negative. *)
Lemma partition_fg cand grey closs comps scores :
  1 < length cand → index_select loss_all cand = Ok closs →
  fit cand = Ok (comps, scores) →
  length comps = length cand → length scores = length cand →
  (∃ r, comps !! r = Some 0) →
  ∃ r neg, is_cutoff comps scores r ∧
    partition cand grey = Ok (SelIdx (take (r + 1) (sort closs).2), Some neg, grey) ∧
    ∀ i, i ∈ neg → i ∈ (sort closs).2.
Proof.
  intros Hlen Hcl Hfit Hlc Hls [r0 Hr0].
  unfold partition_candidates, fit_of in *.
  rewrite decide_True by done. rewrite Hcl in *. simpl in *.
  destruct (tensor_min _) as [lo|]; simpl in *; [|done].
  destruct (tensor_max _) as [hi|]; simpl in *; [|done].
  rewrite Hfit. simpl. clear Hfit.
  set (fgs := map (λ c, bool_decide (c = 0)) comps).
  set (bgs := map (λ c, bool_decide (c = 1)) comps).
  assert (∀ r, fgs !! r = Some true ↔ comps !! r = Some 0) as Hfg.
  { intros r. unfold fgs. rewrite list_lookup_fmap.
    destruct (comps !! r) as [c|]; simpl; [|done]. split.
    - intros [= H]. apply bool_decide_eq_true in H. by subst.
    - intros [= ->]. done. }
  assert (length fgs = length comps) as Hlf by apply length_map.
  rewrite decide_True.
  2:{ assert (r0 ∈ nonzero fgs) as Hin by (by apply elem_of_nonzero, Hfg).
      destruct (nonzero fgs); [by apply elem_of_nil in Hin|simpl; lia]. }
  assert (mask_select scores fgs = Ok (filter_mask scores fgs)) as Hsel.
  { unfold mask_select. rewrite decide_True by congruence. done. }
  destruct (tensor_max (filter_mask scores fgs)) as [m|] eqn:Hmax.
  2:{ exfalso. destruct (lookup_lt_is_Some_2 scores r0) as [s Hs].
      { apply lookup_lt_Some in Hr0. lia. }
      assert (s ∈ filter_mask scores fgs) as Hin.
      { apply elem_of_filter_mask. exists r0. split; [done|by apply Hfg]. }
      destruct (filter_mask scores fgs); [by apply elem_of_nil in Hin|done]. }
  pose proof Hmax as [Hm Hmall]%tensor_max_spec.
  apply elem_of_filter_mask in Hm as (rm & Hrm & Hfm).
  set (at_max := zip_with andb fgs (map (λ s, Qeq_bool s m) scores)).
  assert (mask_and fgs (map (λ s, Qeq_bool s m) scores) = Ok at_max) as Hand.
  { unfold mask_and. rewrite decide_True by (rewrite length_map; congruence).
    done. }
  assert (∀ r, r ∈ nonzero at_max ↔
               comps !! r = Some 0 ∧ ∃ s, scores !! r = Some s ∧ (s == m)%Q)
    as Hat.
  { intros r. rewrite elem_of_nonzero. unfold at_max.
    rewrite lookup_zip_with_Some. split.
    - intros (b1 & b2 & Hb & H1 & H2). symmetry in Hb.
      apply andb_true_iff in Hb as [-> ->]. split; [by apply Hfg|].
      rewrite list_lookup_fmap in H2.
      destruct (scores !! r) as [s|]; simpl in H2; [|done].
      injection H2 as H2. exists s. split; [done|]. by apply Qeq_bool_iff.
    - intros (Hc & s & Hs & Heq). exists true, true. split_and!; [done| |].
      + by apply Hfg.
      + rewrite list_lookup_fmap, Hs. simpl. f_equal. by apply Qeq_bool_iff. }
  destruct (tensor_min_nat (nonzero at_max)) as [r|] eqn:Hmin.
  2:{ exfalso. assert (rm ∈ nonzero at_max) as Hin.
      { apply Hat. split; [by apply Hfg|]. exists m. split; [done|reflexivity]. }
      destruct (nonzero at_max); [by apply elem_of_nil in Hin|done]. }
  pose proof Hmin as [Hr Hrall]%tensor_min_nat_spec.
  apply Hat in Hr as (Hrc & sr & Hrs & Hreq).
  assert (mask_or fgs bgs = Ok (zip_with orb fgs bgs)) as Hor.
  { unfold mask_or. rewrite decide_True; [done|].
    unfold fgs, bgs. by rewrite !length_map. }
  assert (mask_select (argsort closs).*2 (zip_with orb fgs bgs)
          = Ok (filter_mask (argsort closs).*2 (zip_with orb fgs bgs))) as Hneg.
  { unfold mask_select. rewrite decide_True; [done|].
    rewrite length_zip_with, length_fmap, length_argsort.
    unfold fgs, bgs. rewrite !length_map.
    apply index_select_length in Hcl. lia. }
  exists r, (filter_mask (argsort closs).*2 (zip_with orb fgs bgs)).
  split_and!.
  - exists sr. split_and!; [done..| |].
    + intros r' s' Hc' Hs'. rewrite Hreq. apply Hmall.
      apply elem_of_filter_mask. exists r'. split; [done|by apply Hfg].
    + intros r' s' Hlt Hc' Hs' Heq.
      assert (r' ∈ nonzero at_max) as Hin.
      { apply Hat. split; [done|]. exists s'. split; [done|].
        by rewrite Heq. }
      apply Hrall in Hin. lia.
  - rewrite Hsel. simpl. rewrite Hmax. simpl. rewrite Hand. simpl.
    rewrite Hmin. simpl. rewrite Hor. simpl. rewrite Hneg. done.
  - intros i. apply filter_mask_subseteq.
Qed.

Lemma partition_grey cand p n g :
  partition cand None = Ok (p, n, g) → g = None.
Proof.
  unfold partition_candidates. intros H.
  destruct (decide (1 < length cand)); [|by injection H].
  inv_bind H. simpl in H. inv_bind H. inv_bind H. inv_bind H.
  destruct a2 as [comps scores].
  destruct (decide (0 < length _)); [|by injection H].
  inv_bind H. inv_bind H. inv_bind H. inv_bind H. inv_bind H. inv_bind H.
  by injection H.
Qed.

Lemma select_subseteq cand sel pos a :
  select cand sel = Ok pos → a ∈ pos → a ∈ cand.
Proof.
  destruct sel as [i|idx]; simpl; intros H Ha.
  - inv_bind H. injection H as <-. apply list_elem_of_singleton in Ha as ->.
    apply getitem_Ok in Ha0. by eapply list_elem_of_lookup_2.
  - apply (index_select_elem_of _ _ _ a H) in Ha as (i & _ & Hi).
    by eapply list_elem_of_lookup_2.
Qed.

Lemma positives_subseteq cand pos a : pos_of cand = Ok pos → a ∈ pos → a ∈ cand.
Proof.
  unfold positives_of. intros H. inv_bind H. destruct a0 as [[p n] g].
  by eapply select_subseteq.
Qed.

Lemma negatives_subseteq cand neg a : neg_of cand = Ok neg → a ∈ neg → a ∈ cand.
Proof.
  unfold negatives_of. intros H. inv_bind H. destruct a0 as [[p n] g].
  destruct n as [sel|].
  - intros Hin. apply (index_select_elem_of _ _ _ a H) in Hin as (i & _ & Hi).
    by eapply list_elem_of_lookup_2.
  - injection H as <-. by intros ?%elem_of_nil.
Qed.

(** What one iteration with candidates writes: background at the
    negatives, then the class and the box of the object at the positives. *)
Lemma paa_step_spec cands gt cand st st' :
  is_grey st = None → cands !! gt = Some (Some cand) →
  step cands gt st = Ok st' →
  ∃ pos neg cls box,
    pos_of cand = Ok pos ∧ neg_of cand = Ok neg ∧
    labels targets_per_im !! gt = Some cls ∧
    bbox targets_per_im !! gt = Some box ∧
    is_grey st' = None ∧
    length (cls_labels_per_im st') = length (cls_labels_per_im st) ∧
    length (matched_gts st') = length (matched_gts st) ∧
    (∀ a, cls_labels_per_im st' !! a =
          if decide (a ∈ pos) then (λ _, cls) <$> cls_labels_per_im st !! a
          else if decide (a ∈ neg) then (λ _, 0%Z) <$> cls_labels_per_im st !! a
          else cls_labels_per_im st !! a) ∧
    (∀ a, matched_gts st' !! a =
          if decide (a ∈ pos) then (λ _, box) <$> matched_gts st !! a
          else matched_gts st !! a) ∧
    (∀ a, a ∈ pos → a < length (cls_labels_per_im st) ∧
                    a < length (matched_gts st)).
Proof.
  intros Hg Hc. unfold paa_step, getitem. rewrite Hc, Hg. simpl.
  intros H. inv_bind H. destruct a as [[is_pos is_neg] grey].
  pose proof (partition_grey _ _ _ _ Ha) as ->.
  unfold commit in H. simpl in H.
  inv_bind H. rename a into labels2, Ha0 into Hneg.
  inv_bind H. rename a into pos, Ha0 into Hpos.
  inv_bind H. rename a into cls, Ha0 into Hcls.
  inv_bind H. rename a into labels3, Ha0 into Hput.
  inv_bind H. rename a into box, Ha0 into Hbox.
  inv_bind H. rename a into gts, Ha0 into Hgts.
  injection H as <-. simpl.
  apply getitem_Ok in Hcls, Hbox.
  pose proof (index_put_inv _ _ _ _ Hput) as Hr1.
  pose proof (index_put_inv _ _ _ _ Hgts) as Hr2.
  apply index_put_spec in Hput as [Hl3 Hput], Hgts as [Hlg Hgts].
  assert (∃ neg, neg_of cand = Ok neg ∧
            length labels2 = length (cls_labels_per_im st) ∧
            ∀ a, labels2 !! a =
                 if decide (a ∈ neg)
                 then (λ _, 0%Z) <$> cls_labels_per_im st !! a
                 else cls_labels_per_im st !! a) as (neg & Hn & Hl2 & Hlk2).
  { unfold negatives_of. rewrite Ha. simpl. destruct is_neg as [sel|].
    - inv_bind Hneg. exists a. split; [done|].
      by apply index_put_spec in Hneg.
    - injection Hneg as <-. exists []. split_and!; [done..|].
      intros a. destruct (decide (a ∈ [])) as [?%elem_of_nil|]; done. }
  exists pos, neg, cls, box. split_and!; try done.
  - unfold positives_of. rewrite Ha. done.
  - congruence.
  - intros a. rewrite Hput, Hlk2.
    destruct (decide (a ∈ pos)), (decide (a ∈ neg)); try done.
    by destruct (cls_labels_per_im st !! a).
  - intros a Hin. rewrite Forall_forall in Hr1, Hr2.
    specialize (Hr1 a Hin). specialize (Hr2 a Hin). lia.
Qed.

(** An object without candidates is skipped. *)
Lemma paa_step_skip cands gt st :
  cands !! gt = Some None → step cands gt st = Ok st.
Proof. intros Hc. unfold paa_step, getitem. by rewrite Hc. Qed.

Lemma paa_step_grey cands gt st st' :
  is_grey st = None → step cands gt st = Ok st' → is_grey st' = None.
Proof.
  intros Hg H. destruct (cands !! gt) as [[cand|]|] eqn:Hc.
  - by destruct (paa_step_spec _ _ _ _ _ Hg Hc H) as (?&?&?&?&?&?&?&?&?&?&?).
  - rewrite paa_step_skip in H by done. by injection H as <-.
  - unfold paa_step, getitem in H. by rewrite Hc in H.
Qed.

(** An iteration changes the arrays at the candidates of its object only. *)
Lemma paa_step_frame cands gt st st' a :
  is_grey st = None → step cands gt st = Ok st' →
  (∀ c, cands !! gt = Some c → a ∉ candidate_list c) →
  cls_labels_per_im st' !! a = cls_labels_per_im st !! a ∧
  matched_gts st' !! a = matched_gts st !! a.
Proof.
  intros Hg H Hna. destruct (cands !! gt) as [[cand|]|] eqn:Hc.
  - destruct (paa_step_spec _ _ _ _ _ Hg Hc H)
      as (pos & neg & cls & box & Hp & Hn & _ & _ & _ & _ & _ & Hl & Hb & _).
    specialize (Hna _ eq_refl). simpl in Hna.
    rewrite Hl, Hb.
    rewrite !decide_False; [done|..].
    + intros ?. by eapply Hna, positives_subseteq.
    + intros ?. by eapply Hna, negatives_subseteq.
    + intros ?. by eapply Hna, positives_subseteq.
  - rewrite paa_step_skip in H by done. by injection H as <-.
  - unfold paa_step, getitem in H. by rewrite Hc in H.
Qed.

Lemma paa_step_length cands gt st st' :
  is_grey st = None → step cands gt st = Ok st' →
  length (cls_labels_per_im st') = length (cls_labels_per_im st) ∧
  length (matched_gts st') = length (matched_gts st).
Proof.
  intros Hg H. destruct (cands !! gt) as [[cand|]|] eqn:Hc.
  - by destruct (paa_step_spec _ _ _ _ _ Hg Hc H) as (?&?&?&?&?&?&?&?&?&?&?&?&?).
  - rewrite paa_step_skip in H by done. by injection H as <-.
  - unfold paa_step, getitem in H. by rewrite Hc in H.
Qed.

Lemma paa_loop_app cands l1 l2 st :
  loop cands (l1 ++ l2) st = loop cands l1 st ≫= loop cands l2.
Proof.
  revert st. induction l1 as [|g l1 IH]; intros st; simpl; [done|].
  destruct (step cands g st) as [st1|]; simpl; [apply IH|done].
Qed.

Lemma paa_loop_frame cands l st st' a :
  is_grey st = None → loop cands l st = Ok st' →
  (∀ g c, g ∈ l → cands !! g = Some c → a ∉ candidate_list c) →
  is_grey st' = None ∧
  length (cls_labels_per_im st') = length (cls_labels_per_im st) ∧
  length (matched_gts st') = length (matched_gts st) ∧
  cls_labels_per_im st' !! a = cls_labels_per_im st !! a ∧
  matched_gts st' !! a = matched_gts st !! a.
Proof.
  revert st. induction l as [|g l IH]; intros st Hg H Hna; simpl in H.
  { by injection H as <-. }
  inv_bind H. rename a0 into st1.
  pose proof (paa_step_grey _ _ _ _ Hg Ha) as Hg1.
  destruct (paa_step_length _ _ _ _ Hg Ha) as [Hl1 Hl2].
  destruct (paa_step_frame _ _ _ _ a Hg Ha) as [Hf1 Hf2].
  { intros c Hc. apply (Hna g c); [by left|done]. }
  destruct (IH st1 Hg1 H) as (? & ? & ? & ? & ?).
  { intros g' c Hg' Hc. apply (Hna g' c); [by right|done]. }
  split_and!; congruence.
Qed.

(** The part of the frame property that needs no anchor: [is_grey] stays
    [None] and the arrays keep their lengths. *)
Lemma paa_loop_shape cands l st st' :
  is_grey st = None → loop cands l st = Ok st' →
  is_grey st' = None ∧
  length (cls_labels_per_im st') = length (cls_labels_per_im st) ∧
  length (matched_gts st') = length (matched_gts st).
Proof.
  revert st. induction l as [|g l IH]; intros st Hg H; simpl in H.
  { by injection H as <-. }
  inv_bind H. rename a into st1.
  pose proof (paa_step_grey _ _ _ _ Hg Ha) as Hg1.
  destruct (paa_step_length _ _ _ _ Hg Ha) as [Hl1 Hl2].
  destruct (IH st1 Hg1 H) as (? & ? & ?).
  split_and!; congruence.
Qed.

Local Abbreviation marks := (marks_positive gmm loss_all).

(** Every non-zero label in [cls_labels_per_im] was written together with
    the box in [matched_gts], by an object that marked the anchor positive. *)
Lemma paa_loop_provenance cands l st st' :
  is_grey st = None → loop cands l st = Ok st' →
  (∀ a lb, cls_labels_per_im st !! a = Some lb → lb ≠ 0%Z →
     ∃ g box, marks cands g a ∧ labels targets_per_im !! g = Some lb ∧
              bbox targets_per_im !! g = Some box ∧
              matched_gts st !! a = Some box) →
  (∀ a lb, cls_labels_per_im st' !! a = Some lb → lb ≠ 0%Z →
     ∃ g box, marks cands g a ∧ labels targets_per_im !! g = Some lb ∧
              bbox targets_per_im !! g = Some box ∧
              matched_gts st' !! a = Some box).
Proof.
  revert st. induction l as [|g l IH]; intros st Hg H Hinv; simpl in H.
  { by injection H as <-. }
  inv_bind H. rename a into st1.
  apply (IH st1); [by eapply paa_step_grey|done|]. clear IH H st'.
  intros a lb Hlb Hnz.
  destruct (cands !! g) as [[cand|]|] eqn:Hc.
  - destruct (paa_step_spec _ _ _ _ _ Hg Hc Ha)
      as (pos & neg & cls & box & Hp & Hn & Hcls & Hbox & _ & _ & _ & Hl & Hb & Hr).
    rewrite Hl in Hlb. rewrite Hb.
    destruct (decide (a ∈ pos)) as [Hin|Hnin].
    + destruct (Hr a Hin) as [Hr1 Hr2].
      destruct (lookup_lt_is_Some_2 _ _ Hr1) as [l0 Hl0].
      destruct (lookup_lt_is_Some_2 _ _ Hr2) as [b0 Hb0].
      rewrite Hl0 in Hlb. rewrite Hb0. simpl in *. injection Hlb as <-.
      exists g, box. split_and!; try done. by exists cand, pos.
    + destruct (decide (a ∈ neg)).
      * destruct (cls_labels_per_im st !! a); simpl in Hlb; [|done].
        by injection Hlb as <-.
      * by apply Hinv.
  - rewrite paa_step_skip in Ha by done. injection Ha as <-. by apply Hinv.
  - unfold paa_step, getitem in Ha. by rewrite Hc in Ha.
Qed.

(** The last object that has the anchor among its candidates decides
    the label and the box of the anchor: they are what the iteration of
    that object wrote over the state [st1] it started from. *)
Lemma paa_loop_at cands l1 g l2 cand st st' :
  is_grey st = None → loop cands (l1 ++ g :: l2) st = Ok st' →
  cands !! g = Some (Some cand) →
  ∃ st1 pos neg cls box,
    loop cands l1 st = Ok st1 ∧
    pos_of cand = Ok pos ∧ neg_of cand = Ok neg ∧
    labels targets_per_im !! g = Some cls ∧
    bbox targets_per_im !! g = Some box ∧
    ∀ a, (∀ g' c, g' ∈ l2 → cands !! g' = Some c → a ∉ candidate_list c) →
      cls_labels_per_im st' !! a =
        (if decide (a ∈ pos) then (λ _, cls) <$> cls_labels_per_im st1 !! a
         else if decide (a ∈ neg) then (λ _, 0%Z) <$> cls_labels_per_im st1 !! a
         else cls_labels_per_im st1 !! a) ∧
      matched_gts st' !! a =
        (if decide (a ∈ pos) then (λ _, box) <$> matched_gts st1 !! a
         else matched_gts st1 !! a) ∧
      (a ∈ pos → a < length (cls_labels_per_im st1) ∧
                 a < length (matched_gts st1)).
Proof.
  intros Hg H Hc. rewrite paa_loop_app in H. inv_bind H.
  rename a into st1. simpl in H. inv_bind H. rename a into st2.
  destruct (paa_loop_shape _ _ _ _ Hg Ha) as (Hg1 & Hl1 & _).
  pose proof (paa_step_grey _ _ _ _ Hg1 Ha0) as Hg2.
  destruct (paa_step_spec _ _ _ _ _ Hg1 Hc Ha0)
    as (pos & neg & cls & box & Hp & Hn & Hcls & Hbox & _ & _ & _ & Hl & Hb & Hr).
  exists st1, pos, neg, cls, box. split_and!; try done.
  intros a Hna.
  destruct (paa_loop_frame _ _ _ _ a Hg2 H Hna) as (_ & _ & _ & Hf1 & Hf2).
  rewrite Hf1, Hf2, Hl, Hb. split_and!; try done. apply Hr.
Qed.

(** An iteration that raises for every state makes the loop raise. *)
Lemma paa_loop_raise cands l g st :
  g ∈ l → (∀ st0, is_raise (step cands g st0)) → is_raise (loop cands l st).
Proof.
  intros Hin Hr. revert st. induction l as [|g' l IH]; intros st.
  { by apply elem_of_nil in Hin. }
  simpl. destruct (step cands g' st) as [st1|e] eqn:Hs; simpl.
  - apply elem_of_cons in Hin as [->|Hin]; [|by apply IH].
    destruct (Hr st) as [e He]. congruence.
  - by exists e.
Qed.

(** The positives in the three branches of the partition. *)
Lemma positives_single a : pos_of [a] = Ok [a] ∧ neg_of [a] = Ok [].
Proof.
  unfold positives_of, negatives_of.
  rewrite partition_single by (simpl; lia). done.
Qed.

Lemma sorted_candidates_is_ok cand closs :
  index_select loss_all cand = Ok closs →
  ∃ sorted, sorted_candidates loss_all cand = Ok sorted ∧
            index_select cand (sort closs).2 = Ok sorted ∧
            length sorted = length cand.
Proof.
  intros Hcl. unfold sorted_candidates. rewrite Hcl. simpl.
  pose proof (index_select_length _ _ _ Hcl) as Hlen.
  destruct (index_select_in_range cand (argsort closs).*2) as [sorted Hs].
  { apply Forall_forall. intros i Hi%argsort_inds_lt. lia. }
  exists sorted. split_and!; [done..|].
  apply index_select_length in Hs.
  rewrite Hs, length_fmap, length_argsort. done.
Qed.

Lemma positives_no_fg cand comps scores sorted :
  1 < length cand → fit cand = Ok (comps, scores) →
  sorted_candidates loss_all cand = Ok sorted →
  (∀ r, comps !! r ≠ Some 0) →
  pos_of cand = Ok sorted ∧ neg_of cand = Ok [].
Proof.
  intros Hlen Hfit Hs Hno. unfold sorted_candidates in Hs. inv_bind Hs.
  rename a into closs.
  unfold positives_of, negatives_of.
  rewrite (partition_no_fg _ _ closs comps scores) by done. done.
Qed.

Lemma positives_fg cand comps scores sorted :
  1 < length cand → fit cand = Ok (comps, scores) →
  length comps = length cand → length scores = length cand →
  sorted_candidates loss_all cand = Ok sorted →
  (∃ r, comps !! r = Some 0) →
  ∃ r, is_cutoff comps scores r ∧ pos_of cand = Ok (take (r + 1) sorted) ∧
       is_ok (neg_of cand).
Proof.
  intros Hlen Hfit Hlc Hls Hs Hfg. unfold sorted_candidates in Hs. inv_bind Hs.
  rename a into closs.
  destruct (partition_fg cand None closs comps scores) as (r & neg & Hr & Hp & Hn);
    try done.
  exists r. split; [done|]. unfold positives_of, negatives_of. rewrite Hp.
  simpl. split; [by apply index_select_take|].
  apply index_select_in_range, Forall_forall.
  intros i Hi%Hn%argsort_inds_lt.
  apply index_select_length in Ha. lia.
Qed.




End LoopFacts.

(** ** The engine on one image *)

Lemma index_select_NoDup {A} (t : list A) idx xs :
  NoDup t → NoDup idx → index_select t idx = Ok xs → NoDup xs.
Proof.
  intros Ht Hidx H%index_select_Ok. apply NoDup_alt. intros k1 k2 x Hk1 Hk2.
  destruct (Forall2_lookup_r _ _ _ _ _ H Hk1) as (i1 & Hi1 & Hx1).
  destruct (Forall2_lookup_r _ _ _ _ _ H Hk2) as (i2 & Hi2 & Hx2).
  assert (i1 = i2) as -> by (by apply (NoDup_lookup t i1 i2 x)).
  by apply (NoDup_lookup idx k1 k2 i2).
Qed.

Lemma index_select_fmap (t : list nat) idx xs :
  index_select t idx = Ok xs → xs = (λ i, default 0 (t !! i)) <$> idx.
Proof.
  intros H%index_select_Ok. induction H as [|i x idx xs Hi _ IH]; simpl; [done|].
  rewrite Hi. simpl. by f_equal.
Qed.

Lemma fmap_lookup_seq (t : list nat) :
  (λ i, default 0 (t !! i)) <$> seq 0 (length t) = t.
Proof.
  apply list_eq. intros i. rewrite list_lookup_fmap.
  destruct (decide (i < length t)) as [Hlt|Hge].
  - rewrite lookup_seq_lt by done. simpl.
    destruct (lookup_lt_is_Some_2 t i Hlt) as [x ->]. done.
  - rewrite lookup_seq_ge by lia. simpl.
    symmetry. apply lookup_ge_None. lia.
Qed.

(** [sorted_candidates] is the candidate list rearranged, in ascending
    order of the losses. *)
Lemma sorted_candidates_spec loss_all cand sorted :
  sorted_candidates loss_all cand = Ok sorted →
  sorted ≡ₚ cand ∧
  ∀ k1 k2 a1 a2 x1 x2, k1 ≤ k2 →
    sorted !! k1 = Some a1 → sorted !! k2 = Some a2 →
    loss_all !! a1 = Some x1 → loss_all !! a2 = Some x2 → (x1 <= x2)%Q.
Proof.
  unfold sorted_candidates. intros H. inv_bind H. rename a into closs.
  simpl in H. pose proof (index_select_length _ _ _ Ha) as Hlen.
  split.
  - rewrite (index_select_fmap _ _ _ H), argsort_inds_Permutation, Hlen.
    by rewrite fmap_lookup_seq.
  - intros k1 k2 a1 a2 x1 x2 Hle Hk1 Hk2 Hx1 Hx2.
    apply index_select_Ok in H, Ha.
    destruct (Forall2_lookup_r _ _ _ _ _ H Hk1) as (i1 & Hi1 & Hc1).
    destruct (Forall2_lookup_r _ _ _ _ _ H Hk2) as (i2 & Hi2 & Hc2).
    rewrite list_lookup_fmap in Hi1, Hi2.
    destruct (argsort closs !! k1) as [[y1 j1]|] eqn:Hp1; [|done].
    destruct (argsort closs !! k2) as [[y2 j2]|] eqn:Hp2; [|done].
    simpl in Hi1, Hi2. injection Hi1 as ->. injection Hi2 as ->.
    pose proof (argsort_ascending _ _ _ _ _ Hp1 Hp2 Hle) as Hasc. simpl in Hasc.
    apply list_elem_of_lookup_2, elem_of_argsort in Hp1, Hp2.
    destruct (Forall2_lookup_l _ _ _ _ _ Ha Hc1) as (z1 & Hz1 & Hl1).
    destruct (Forall2_lookup_l _ _ _ _ _ Ha Hc2) as (z2 & Hz2 & Hl2).
    congruence.
Qed.

Section EngineFacts.

Variable TOPK : nat.
Variable gmm : Q * Q → list Q → result fit_result.
Variable encode : Box → Box → Box.
Variable targets_per_im : BoxList.
Variable anchors_im : list (list Box).
Variable labels_all : list Z.
Variable loss_all : list Q.
Variable matched : list Z.

Local Abbreviation sel_cands :=
  (select_candidates TOPK targets_per_im anchors_im labels_all loss_all matched).
Local Abbreviation cand_of :=
  (candidate_idxs_of TOPK anchors_im labels_all loss_all matched).
Local Abbreviation run :=
  (compute_paa_per_im TOPK gmm encode targets_per_im anchors_im labels_all
     loss_all matched).
Local Abbreviation fit_gts :=
  (fit_per_gt gmm targets_per_im anchors_im loss_all matched).
Local Abbreviation loop := (paa_loop gmm targets_per_im loss_all).
Local Abbreviation pos_of := (positives_of gmm loss_all).
Local Abbreviation n_labels := (length (concat anchors_im)).

Lemma fill_matched_gts_length ms gts :
  fill_matched_gts targets_per_im ms = Ok gts → length gts = length ms.
Proof.
  revert gts. induction ms as [|m ms IH]; intros gts; simpl.
  - by intros [= <-].
  - intros H. inv_bind H. inv_bind H. injection H as <-. simpl.
    f_equal. by apply IH.
Qed.


(** What a returned [fit_per_gt] went through. *)
Lemma fit_per_gt_inv cands st :
  fit_gts cands = Ok st →
  ∃ gts0, length gts0 = n_labels ∧
    loop cands (seq 0 (length (bbox targets_per_im)))
      (mkState (replicate n_labels 0%Z) gts0 None) = Ok st ∧
    is_grey st = None ∧
    length (cls_labels_per_im st) = n_labels ∧
    length (matched_gts st) = n_labels.
Proof.
  unfold fit_per_gt, init_matched_gts, anchors_per_im. intros H. inv_bind H.
  rename a into gts0. destruct (decide _) as [Hlen|]; [|done].
  apply fill_matched_gts_length in Ha.
  destruct (paa_loop_shape gmm targets_per_im loss_all cands _
              (mkState (replicate n_labels 0%Z) gts0 None) st eq_refl H)
    as (Hg & Hl1 & Hl2).
  simpl in *. rewrite length_replicate in Hl1.
  exists gts0. split_and!; try done; congruence.
Qed.

(** What a returned [compute_paa_per_im] went through. *)
Lemma compute_paa_per_im_inv lbls regs :
  run = Ok (lbls, regs) →
  mode targets_per_im = xyxy ∧ length labels_all = length matched ∧
  ∃ cands st, sel_cands = Ok cands ∧ fit_gts cands = Ok st ∧
    lbls = cls_labels_per_im st ∧
    regs = zip_with encode (matched_gts st) (concat anchors_im).
Proof.
  unfold compute_paa_per_im, assign. intros H.
  inv_bind H. apply assert_Ok, bool_decide_eq_true in Ha.
  inv_bind H. apply assert_Ok, bool_decide_eq_true in Ha0.
  inv_bind H. rename a1 into cands. inv_bind H. rename a1 into st.
  injection H as <- <-. split_and!; [done..|]. by exists cands, st.
Qed.

(** The labels of the candidates of an object at the end of the loop:
    its class at its positives, background at its other candidates. *)
Lemma engine_candidate_labels cands st g cand :
  sel_cands = Ok cands → fit_gts cands = Ok st →
  cands !! g = Some (Some cand) →
  ∃ pos cls box,
    pos_of cand = Ok pos ∧
    labels targets_per_im !! g = Some cls ∧
    bbox targets_per_im !! g = Some box ∧
    ∀ a, a ∈ cand →
      cls_labels_per_im st !! a = Some (if decide (a ∈ pos) then cls else 0%Z) ∧
      (a ∈ pos → matched_gts st !! a = Some box).
Proof.
  intros Hsel Hfit Hc.
  destruct (select_candidates_spec _ _ _ _ _ _ _ Hsel) as [Hlen Hof].
  destruct (fit_per_gt_inv _ _ Hfit) as (gts0 & Hl0 & Hloop & _).
  assert (g < length (bbox targets_per_im)) as Hg.
  { apply lookup_lt_Some in Hc. lia. }
  set (n := length (bbox targets_per_im)) in *.
  assert (seq 0 n = seq 0 g ++ g :: seq (S g) (n - S g)) as Hseq.
  { replace n with (g + S (n - S g)) at 1 by lia.
    by rewrite seq_app, <- cons_seq. }
  rewrite Hseq in Hloop.
  set (st0 := mkState (replicate n_labels 0%Z) gts0 None) in *.
  destruct (paa_loop_at gmm targets_per_im loss_all cands _ _ _ cand st0 st
              eq_refl Hloop Hc)
    as (st1 & pos & neg & cls & box & Hl1 & Hp & Hn & Hcls & Hbox & Hat).
  exists pos, cls, box. split_and!; try done.
  intros a Ha.
  assert (∀ g' c, g' ≠ g → cands !! g' = Some c → a ∉ candidate_list c) as Hdis.
  { intros g' c Hne Hc'.
    apply (candidates_disjoint _ _ _ _ _ _ _ g g' (Some cand) c a Hsel); done. }
  destruct (Hat a) as (Hlab & Hgts & Hr).
  { intros g' c Hg' Hc'. apply elem_of_seq in Hg'. apply (Hdis g'); [lia|done]. }
  destruct (paa_loop_frame gmm targets_per_im loss_all cands _ st0 st1 a
              eq_refl Hl1) as (_ & Hlen1 & Hlen2 & Hf1 & Hf2).
  { intros g' c Hg' Hc'. apply elem_of_seq in Hg'. apply (Hdis g'); [lia|done]. }
  assert (a < n_labels) as Han.
  { by destruct (proj1 (candidate_idxs_of_spec _ _ _ _ _ _ _ (Hof _ _ Hc)) a Ha). }
  assert (cls_labels_per_im st1 !! a = Some 0%Z) as Hzero.
  { rewrite Hf1. simpl. by apply lookup_replicate_2. }
  rewrite Hlab, Hzero. split.
  - by destruct (decide (a ∈ pos)), (decide (a ∈ neg)).
  - intros Hin. rewrite Hgts, decide_True by done.
    destruct (Hr Hin) as [_ Hr2].
    by destruct (lookup_lt_is_Some_2 _ _ Hr2) as [b0 ->].
Qed.

(** C4. For every object [g] of an image, the candidate set that
    [compute_paa] builds consists, on every pyramid level, of the
    [min(TOPK, count)] anchors with the lowest scores among the anchors of
    the level whose IoU-based matched index is [g] and whose IoU-based
    label is positive; the levels are concatenated.  So it has at most
    [number of levels * TOPK] anchors, all distinct, and no anchor with a
    non-positive IoU-based label or with another matched index is a
    candidate of [g].  The selection returns whenever there is a loss
    for every matched index. *)
Theorem candidate_set_topk_per_level :
  length matched ≤ length loss_all →
  ∃ cands, sel_cands = Ok cands ∧
    length cands = length (bbox targets_per_im) ∧
    ∀ g c, cands !! g = Some c →
      (∀ a, a ∈ candidate_list c → eligible labels_all matched g a) ∧
      NoDup (candidate_list c) ∧
      length (candidate_list c) ≤ length anchors_im * TOPK ∧
      ∀ k n, num_anchors_per_level anchors_im !! k = Some n →
        length (filter (in_level (level_start (num_anchors_per_level anchors_im) k) n)
                       (candidate_list c))
        = TOPK `min`
          length (filter (eligible labels_all matched g)
                    (seq (level_start (num_anchors_per_level anchors_im) k) n)) ∧
        ∀ a b x y, a ∈ candidate_list c →
          in_level (level_start (num_anchors_per_level anchors_im) k) n a →
          in_level (level_start (num_anchors_per_level anchors_im) k) n b →
          eligible labels_all matched g b → b ∉ candidate_list c →
          loss_all !! a = Some x → loss_all !! b = Some y → (x <= y)%Q.
Proof.
  intros Hlen.
  destruct (select_candidates_ok TOPK targets_per_im anchors_im labels_all
              loss_all matched Hlen) as [cands Hsel].
  exists cands. split; [done|].
  destruct (select_candidates_spec _ _ _ _ _ _ _ Hsel) as [Hn Hof].
  split; [done|]. intros g c Hc.
  destruct (candidate_idxs_of_spec _ _ _ _ _ _ _ (Hof g c Hc))
    as (H1 & H2 & H3 & H4 & _).
  split_and!; [|done..]. intros a Ha. by destruct (H1 a Ha).
Qed.

(** C3. For an object with at least two candidates whose fit returned:
    when some candidate is in component 0, there is a cutoff rank (the
    first member of component 0 whose log-likelihood is the maximum over
    component 0) such that, in the output of the engine, the candidates
    at the ranks up to the cutoff in the ascending-score order carry the
    class of the object and every other candidate carries background;
    when no candidate is in component 0, all candidates carry the class
    of the object. *)
Theorem partition_is_sorted_prefix lbls regs cands g cand comps scores sorted cls :
  run = Ok (lbls, regs) → sel_cands = Ok cands →
  cands !! g = Some (Some cand) → 1 < length cand →
  fit_of gmm loss_all cand = Ok (comps, scores) →
  length comps = length cand → length scores = length cand →
  sorted_candidates loss_all cand = Ok sorted →
  labels targets_per_im !! g = Some cls →
  ((∃ r, comps !! r = Some 0) →
     ∃ r, is_cutoff comps scores r ∧
       ∀ k a, sorted !! k = Some a →
         lbls !! a = Some (if decide (k ≤ r) then cls else 0%Z)) ∧
  ((∀ r, comps !! r ≠ Some 0) →
     ∀ a, a ∈ cand → lbls !! a = Some cls).
Proof.
  intros Hrun Hsel Hc Hlen Hfit Hlc Hls Hsorted Hcls.
  destruct (compute_paa_per_im_inv _ _ Hrun)
    as (_ & _ & cands' & st & Hsel' & Hst & -> & _).
  assert (cands' = cands) as -> by congruence.
  destruct (engine_candidate_labels _ _ _ _ Hsel Hst Hc)
    as (pos & cls' & box & Hpos & Hcls' & _ & Hlab).
  assert (cls' = cls) as -> by congruence.
  destruct (sorted_candidates_spec _ _ _ Hsorted) as [Hperm _].
  destruct (select_candidates_spec _ _ _ _ _ _ _ Hsel) as [_ Hof].
  destruct (candidate_idxs_of_spec _ _ _ _ _ _ _ (Hof _ _ Hc)) as (_ & Hnd & _).
  simpl in Hnd. rewrite <- Hperm in Hnd.
  split.
  - intros Hfg.
    destruct (positives_fg gmm loss_all cand comps scores sorted)
      as (r & Hr & Hp & _); try done.
    exists r. split; [done|]. intros k a Hk.
    assert (a ∈ cand) as Ha.
    { rewrite <- Hperm. by eapply list_elem_of_lookup_2. }
    destruct (Hlab a Ha) as [-> _]. f_equal.
    assert (pos = take (r + 1) sorted) as -> by congruence.
    destruct (decide (k ≤ r)) as [Hle|Hgt].
    + rewrite decide_True; [done|]. apply elem_of_take. exists k. split; [done|lia].
    + rewrite decide_False; [done|].
      intros (i & Hi & Hlt)%elem_of_take.
      assert (i = k) by (by apply (NoDup_lookup sorted i k a)). lia.
  - intros Hno a Ha.
    destruct (positives_no_fg gmm loss_all cand comps scores sorted) as [Hp _];
      try done.
    assert (pos = sorted) as -> by congruence.
    destruct (Hlab a Ha) as [-> _]. rewrite decide_True; [done|].
    by rewrite Hperm.
Qed.

(** In [compute_paa] an anchor is marked positive by one object at most:
    the object of its IoU-based matched index. *)
Lemma marks_positive_matched cands g a :
  sel_cands = Ok cands → marks_positive gmm loss_all cands g a →
  matched !! a = Some (Z.of_nat g) ∧ a < n_labels.
Proof.
  intros Hsel (cand & pos & Hc & Hp & Ha).
  destruct (select_candidates_spec _ _ _ _ _ _ _ Hsel) as [_ Hof].
  destruct (candidate_idxs_of_spec _ _ _ _ _ _ _ (Hof _ _ Hc)) as (H1 & _).
  apply (positives_subseteq _ _ _ _ _ Hp) in Ha.
  destruct (H1 a Ha) as [? [? _]]. done.
Qed.

(** An object whose candidate tensor is empty makes the iteration raise:
    [candidate_idxs[gt][0]] does not exist. *)
Lemma paa_step_empty_raises cands g st :
  cands !! g = Some (Some []) →
  is_raise (paa_step gmm targets_per_im loss_all cands g st).
Proof.
  intros Hc. unfold paa_step, getitem. rewrite Hc.
  cbn [mbind result_bind]. rewrite partition_single by (simpl; lia).
  unfold commit. simpl. by eexists.
Qed.

(** C5. In a run of the engine that returned: an object with an empty
    candidate set has no eligible anchor and its iteration leaves the
    labels and the boxes as they are; for an object with exactly one
    candidate the iteration does not depend on the mixture fit, and the
    candidate ends with the class of the object and with the encoding of
    the box of the object as its regression target. *)
Theorem degenerate_candidate_sets lbls regs cands g c :
  run = Ok (lbls, regs) → sel_cands = Ok cands → cands !! g = Some c →
  (candidate_list c = [] →
     (∀ a, a < n_labels → ¬ eligible labels_all matched g a) ∧
     ∀ st, paa_step gmm targets_per_im loss_all cands g st = Ok st) ∧
  (∀ a, candidate_list c = [a] →
     (∀ fit1 fit2 st, paa_step fit1 targets_per_im loss_all cands g st
                      = paa_step fit2 targets_per_im loss_all cands g st) ∧
     ∃ cls box anc,
       labels targets_per_im !! g = Some cls ∧
       bbox targets_per_im !! g = Some box ∧
       concat anchors_im !! a = Some anc ∧
       lbls !! a = Some cls ∧ regs !! a = Some (encode box anc)).
Proof.
  intros Hrun Hsel Hc.
  destruct (compute_paa_per_im_inv _ _ Hrun)
    as (_ & _ & cands' & st & Hsel' & Hst & -> & ->).
  assert (cands' = cands) as -> by congruence.
  destruct (select_candidates_spec _ _ _ _ _ _ _ Hsel) as [Hn Hof].
  destruct (candidate_idxs_of_spec _ _ _ _ _ _ _ (Hof _ _ Hc))
    as (H1 & _ & _ & _ & H5 & _).
  split.
  - intros Hnil. assert (c = None) as ->.
    { destruct c as [cand|]; [|done]. simpl in Hnil. subst cand. exfalso.
      destruct (fit_per_gt_inv _ _ Hst) as (gts0 & _ & Hloop & _).
      destruct (paa_loop_raise gmm targets_per_im loss_all cands
                  (seq 0 (length (bbox targets_per_im))) g
                  (mkState (replicate n_labels 0%Z) gts0 None)) as [e He].
      - apply elem_of_seq. apply lookup_lt_Some in Hc. lia.
      - intros st0. by apply paa_step_empty_raises.
      - congruence. }
    split; [by apply H5|]. intros st0. by apply paa_step_skip.
  - intros a Ha. destruct c as [cand|]; [|done]. simpl in Ha. subst cand.
    split.
    + intros fit1 fit2 st0. unfold paa_step, getitem. rewrite Hc.
      cbn [mbind result_bind]. by rewrite !partition_single by (simpl; lia).
    + destruct (engine_candidate_labels _ _ _ _ Hsel Hst Hc)
        as (pos & cls & box & Hpos & Hcls & Hbox & Hlab).
      destruct (positives_single gmm loss_all a) as [Hp _].
      assert (pos = [a]) as -> by congruence.
      destruct (Hlab a) as [Hl Hb]; [by left|].
      rewrite decide_True in Hl by (by left).
      specialize (Hb ltac:(by left)).
      destruct (H1 a) as [Han _]; [by left|].
      destruct (lookup_lt_is_Some_2 _ _ Han) as [anc Hanc].
      exists cls, box, anc. split_and!; try done.
      apply lookup_zip_with_Some. by exists box, anc.
Qed.

(** C7. In the output of the engine every anchor with a positive label
    has one object behind it: the object of its IoU-based matched index
    marked it positive, the label is the class of that object, the box
    in [matched_gts], from which the regression target of the anchor is
    encoded, is the box of that object, and no other object marked the
    anchor positive. *)
Theorem regression_box_matches_label lbls regs :
  run = Ok (lbls, regs) →
  ∃ cands gts, sel_cands = Ok cands ∧
    length gts = n_labels ∧ length lbls = n_labels ∧
    regs = zip_with encode gts (concat anchors_im) ∧
    ∀ a lb, lbls !! a = Some lb → (0 < lb)%Z →
      ∃ g box, marks_positive gmm loss_all cands g a ∧
        labels targets_per_im !! g = Some lb ∧
        bbox targets_per_im !! g = Some box ∧
        gts !! a = Some box ∧
        (∀ g', marks_positive gmm loss_all cands g' a → g' = g).
Proof.
  intros Hrun.
  destruct (compute_paa_per_im_inv _ _ Hrun)
    as (_ & _ & cands & st & Hsel & Hst & -> & ->).
  destruct (fit_per_gt_inv _ _ Hst) as (gts0 & Hl0 & Hloop & _ & Hl1 & Hl2).
  exists cands, (matched_gts st). split_and!; try done.
  intros a lb Hlb Hpos.
  destruct (paa_loop_provenance gmm targets_per_im loss_all cands _
              (mkState (replicate n_labels 0%Z) gts0 None) st eq_refl Hloop)
    with (a := a) (lb := lb) as (g & box & Hm & Hcls & Hbox & Hgts);
    [|done|lia|].
  { simpl. intros a' lb' [-> _]%lookup_replicate. done. }
  exists g, box. split_and!; try done.
  intros g' Hm'.
  destruct (marks_positive_matched _ _ _ Hsel Hm) as [Hg _].
  destruct (marks_positive_matched _ _ _ Hsel Hm') as [Hg' _].
  rewrite Hg in Hg'. injection Hg' as Hg'. lia.
Qed.

(** C10. When every object has a positive class, no label in the output
    of the engine is the "ignored" value -1: every label is background
    (0) or a positive class.  The variable [is_grey], which selects the
    anchors to ignore, is [None] at the end of the loop as at its start. *)
Theorem labels_never_ignored lbls regs :
  compute_paa_per_im TOPK gmm encode targets_per_im anchors_im labels_all
    loss_all matched = Ok (lbls, regs) →
  (∀ c, c ∈ labels targets_per_im → (0 < c)%Z) →
  (∃ cands st, sel_cands = Ok cands ∧ fit_gts cands = Ok st ∧
               lbls = cls_labels_per_im st ∧ is_grey st = None) ∧
  ∀ a lb, lbls !! a = Some lb → lb ≠ (-1)%Z ∧ (lb = 0%Z ∨ (0 < lb)%Z).
Proof.
  intros Hrun Hcls.
  destruct (compute_paa_per_im_inv _ _ Hrun)
    as (_ & _ & cands & st & Hsel & Hst & -> & ->).
  destruct (fit_per_gt_inv _ _ Hst) as (gts0 & Hl0 & Hloop & Hg & _).
  split; [by exists cands, st|].
  intros a lb Hlb.
  destruct (decide (lb = 0%Z)) as [->|Hnz]; [split; [done|by left]|].
  destruct (paa_loop_provenance gmm targets_per_im loss_all cands _
              (mkState (replicate n_labels 0%Z) gts0 None) st eq_refl Hloop)
    with (a := a) (lb := lb) as (g & box & _ & Hc & _); [|done..|].
  { simpl. intros a' lb' [-> _]%lookup_replicate. done. }
  apply list_elem_of_lookup_2, Hcls in Hc. split; [lia|by right].
Qed.



End EngineFacts.

(** ** The engine on the small image *)

Lemma candidate_set_topk_per_level_witness :
  length scene_matched ≤ length scene_loss ∧
  ∃ cands,
    select_candidates 3 scene_targets scene_anchors scene_labels_all
      scene_loss scene_matched = Ok cands ∧
    ∀ g c, cands !! g = Some c →
      length (candidate_list c) ≤ 2 * 3 ∧
      ∀ a, a ∈ candidate_list c → eligible scene_labels_all scene_matched g a.
Proof.
  split; [simpl; lia|].
  destruct (candidate_set_topk_per_level 3 scene_targets scene_anchors
              scene_labels_all scene_loss scene_matched)
    as (cands & Hsel & _ & Hall); [simpl; lia|].
  exists cands. split; [exact Hsel|]. intros g c Hc.
  destruct (Hall g c Hc) as (H1 & _ & H3 & _). split; [exact H3|exact H1].
Defined.

Lemma partition_is_sorted_prefix_witness :
  (∃ r, ∀ k a, [1; 0; 3] !! k = Some a →
     [0; 3; 5; 0; 0; 7]%Z !! a = Some (if decide (k ≤ r) then 3%Z else 0%Z)) ∧
  (∀ a, a ∈ [1; 0; 3] → [3; 3; 5; 3; 5; 7]%Z !! a = Some 3%Z).
Proof.
  split.
  - refine (match partition_is_sorted_prefix 3 nearest_mean_fit offset_encode
                    scene_targets scene_anchors scene_labels_all scene_loss
                    scene_matched [0; 3; 5; 0; 0; 7]%Z _ _ 0 [1; 0; 3] _ _
                    [1; 0; 3] 3%Z _ _ _ _ _ _ _ _ _
            with conj Hfg _ => _ end).
    + vm_compute. reflexivity.
    + vm_compute. reflexivity.
    + reflexivity.
    + simpl. lia.
    + vm_compute. reflexivity.
    + reflexivity.
    + reflexivity.
    + vm_compute. reflexivity.
    + reflexivity.
    + destruct Hfg as (r & _ & Hr); [by exists 0|]. by exists r.
  - refine (match partition_is_sorted_prefix 3 background_fit offset_encode
                    scene_targets scene_anchors scene_labels_all scene_loss
                    scene_matched [3; 3; 5; 3; 5; 7]%Z _ _ 0 [1; 0; 3] _ _
                    [1; 0; 3] 3%Z _ _ _ _ _ _ _ _ _
            with conj _ Hbg => _ end).
    + vm_compute. reflexivity.
    + vm_compute. reflexivity.
    + reflexivity.
    + simpl. lia.
    + vm_compute. reflexivity.
    + reflexivity.
    + reflexivity.
    + vm_compute. reflexivity.
    + reflexivity.
    + apply Hbg. intros [|[|[|r]]]; done.
Defined.

Lemma degenerate_candidate_sets_witness :
  (∀ st, paa_step nearest_mean_fit scene_targets scene_loss
           [Some [1; 0; 3]; Some [2; 4]; Some [5]; None] 3 st = Ok st) ∧
  (∃ cls box anc,
     labels scene_targets !! 2 = Some cls ∧
     bbox scene_targets !! 2 = Some box ∧
     concat scene_anchors !! 5 = Some anc ∧
     [0; 3; 5; 0; 0; 7]%Z !! 5 = Some cls).
Proof.
  split.
  - refine (match degenerate_candidate_sets 3 nearest_mean_fit offset_encode
                    scene_targets scene_anchors scene_labels_all scene_loss
                    scene_matched [0; 3; 5; 0; 0; 7]%Z _
                    [Some [1; 0; 3]; Some [2; 4]; Some [5]; None] 3 None _ _ _
            with conj Hnone _ => _ end).
    + vm_compute. reflexivity.
    + vm_compute. reflexivity.
    + reflexivity.
    + exact (proj2 (Hnone eq_refl)).
  - refine (match degenerate_candidate_sets 3 nearest_mean_fit offset_encode
                    scene_targets scene_anchors scene_labels_all scene_loss
                    scene_matched [0; 3; 5; 0; 0; 7]%Z _
                    [Some [1; 0; 3]; Some [2; 4]; Some [5]; None] 2
                    (Some [5]) _ _ _
            with conj _ Hone => _ end).
    + vm_compute. reflexivity.
    + vm_compute. reflexivity.
    + reflexivity.
    + destruct (Hone 5 eq_refl) as (_ & cls & box & anc & H1 & H2 & H3 & H4 & _).
      by exists cls, box, anc.
Defined.

Lemma regression_box_matches_label_witness :
  ∃ g box, scene_matched !! 1 = Some (Z.of_nat g) ∧
           labels scene_targets !! g = Some 3%Z ∧
           bbox scene_targets !! g = Some box.
Proof.
  eassert (compute_paa_per_im 3 nearest_mean_fit offset_encode scene_targets
             scene_anchors scene_labels_all scene_loss scene_matched
           = Ok ([0; 3; 5; 0; 0; 7]%Z, _)) as Hrun by (vm_compute; reflexivity).
  destruct (regression_box_matches_label _ _ _ _ _ _ _ _ _ _ Hrun)
    as (cands & gts & Hsel & _ & _ & _ & Hall).
  destruct (Hall 1 3%Z eq_refl ltac:(lia)) as (g & box & Hm & Hcls & Hbox & _).
  exists g, box. split_and!; try done.
  by destruct (marks_positive_matched _ _ _ _ _ _ _ _ _ _ Hsel Hm).
Defined.

Lemma labels_never_ignored_witness :
  Forall (λ lb, lb ≠ (-1)%Z ∧ (lb = 0%Z ∨ (0 < lb)%Z)) [0; 3; 5; 0; 0; 7]%Z.
Proof.
  apply Forall_lookup. intros a lb Hlb. revert a lb Hlb.
  refine (proj2 (labels_never_ignored 3 nearest_mean_fit offset_encode
                   scene_targets scene_anchors scene_labels_all scene_loss
                   scene_matched [0; 3; 5; 0; 0; 7]%Z _ _ _)).
  - vm_compute. reflexivity.
  - intros c Hc. simpl in Hc.
    repeat (apply elem_of_cons in Hc as [->|Hc]; [lia|]).
    by apply elem_of_nil in Hc.
Defined.




(** With identical scores and a fit that returns, the partition is the
    one of the fit, not "all candidates positive": a fit that puts the
    three candidates of object 0 into component 0 with one
    log-likelihood leaves one of them (anchor 1) positive. *)
Example identical_scores_tied_fit :
  compute_paa_per_im 3 tied_fit offset_encode scene_targets scene_anchors
    scene_labels_all flat_loss scene_matched
  = Ok ([0; 3; 5; 0; 0; 7]%Z,
        [box_of 0 0 2 2; box_of (-1) (-1) 0 0; box_of 0 0 4 4;
         box_of (-2) (-2) (-2) (-2); box_of 4 4 0 0; box_of 2 2 (-4) (-4)]).
Proof. vm_compute. reflexivity. Qed.


(** ** The GIoU loss *)

Section GIoUFacts.

Local Open Scope Q_scope.

Lemma Qlt_bool_iff x y : Qlt_bool x y = true ↔ x < y.
Proof.
  unfold Qlt_bool. rewrite negb_true_iff. split.
  - intros H. apply Qnot_le_lt. intros Hle%Qle_bool_iff. congruence.
  - intros H. destruct (Qle_bool y x) eqn:Hb; [|done].
    apply Qle_bool_iff in Hb. lra.
Qed.






Variable decode : Box → Box → Box.

(** C8. With one prediction, one target and one anchor per row: when a
    weight vector with a positive sum is supplied, the result is the
    per-anchor losses multiplied elementwise by the weights; otherwise
    the result is the per-anchor losses themselves when the batch is not
    empty and an assertion error when it is empty, never an empty
    result. *)
Theorem giou_weighting pred target anchor weight :
  length pred = length anchor → length target = length anchor →
  (∀ w, weight = Some w → 0 < tensor_sum w → length w = length pred →
     GIoULoss decode pred target anchor weight
     = Ok (zip_with Qmult
             (zip_with giou_loss_row (zip_with decode pred anchor)
                                     (zip_with decode target anchor)) w)) ∧
  ((weight = None ∨ ∃ w, weight = Some w ∧ ¬ 0 < tensor_sum w) →
     (pred = [] →
        GIoULoss decode pred target anchor weight = Raise AssertionError) ∧
     (pred ≠ [] →
        GIoULoss decode pred target anchor weight
        = Ok (zip_with giou_loss_row (zip_with decode pred anchor)
                                     (zip_with decode target anchor))) ∧
     GIoULoss decode pred target anchor weight ≠ Ok []).
Proof.
  intros Hp Ht. unfold GIoULoss, giou_losses, decode_rows.
  rewrite !decide_True by done. simpl.
  set (losses := zip_with giou_loss_row _ _).
  assert (length losses = length pred) as Hlen.
  { unfold losses. rewrite !length_zip_with. lia. }
  assert (pred = [] → losses = []) as Hnil.
  { intros ->. by apply nil_length_inv. }
  assert (pred ≠ [] → bool_decide (length losses = 0%nat) = false) as Hne.
  { intros Hne. apply bool_decide_eq_false. rewrite Hlen.
    by destruct pred. }
  assert (∀ r, (assert (negb (bool_decide (length losses = 0%nat))) ≫= λ _, Ok losses)
               = r →
               (pred = [] → r = Raise AssertionError) ∧
               (pred ≠ [] → r = Ok losses) ∧ r ≠ Ok []) as Hassert.
  { intros r <-. split_and!.
    - intros ->%Hnil. done.
    - intros ->%Hne. done.
    - destruct pred as [|x pred'].
      + by rewrite Hnil.
      + rewrite Hne by done. simpl. intros [= Hl]. by rewrite Hl in Hlen. }
  split.
  - intros w -> Hpos Hw. apply Qlt_bool_iff in Hpos. rewrite Hpos.
    unfold tensor_mul. rewrite decide_True by congruence. done.
  - intros [->|(w & -> & Hw)]; [by apply Hassert|].
    destruct (Qlt_bool 0 (tensor_sum w)) eqn:Hb; [|by apply Hassert].
    by apply Qlt_bool_iff in Hb.
Qed.

End GIoUFacts.


Lemma giou_weighting_witness :
  GIoULoss offset_decode [box_of 0 0 2 2] [box_of 1 1 3 3] [zero_box]
    (Some [2%Q])
  = Ok (zip_with Qmult
          (zip_with giou_loss_row
             (zip_with offset_decode [box_of 0 0 2 2] [zero_box])
             (zip_with offset_decode [box_of 1 1 3 3] [zero_box])) [2%Q]) ∧
  GIoULoss offset_decode [] [] [] (Some []) = Raise AssertionError ∧
  GIoULoss offset_decode [] [] [] None = Raise AssertionError.
Proof.
  split_and!.
  - apply (giou_weighting offset_decode [box_of 0 0 2 2] [box_of 1 1 3 3]
             [zero_box] (Some [2%Q]) eq_refl eq_refl); [done|by vm_compute|done].
  - apply (giou_weighting offset_decode [] [] [] (Some []) eq_refl eq_refl);
      [|done]. right. exists []. split; [done|]. by vm_compute.
  - apply (giou_weighting offset_decode [] [] [] None eq_refl eq_refl);
      [by left|done].
Defined.

(** ** The loss aggregation *)

Lemma nonzero_all_false mask :
  (∀ j, mask !! j ≠ Some true) → nonzero mask = [].
Proof.
  intros H. apply elem_of_nil_inv. intros a Ha%elem_of_nonzero. by apply (H a).
Qed.

Section CallFacts.

Variable TOPK : nat.
Variable reg_loss_type : string.
Variable REG_LOSS_WEIGHT : Q.
Variable iou_loss_weight : Q.
Variable gmm : Q * Q → list Q → result fit_result.
Variable decode : Box → Box → Box.
Variable encode : Box → Box → Box.
Variable cls_loss_func : list (list Q) → list Z → list (list Q).
Variable iou_pred_loss_func : list Q → list Q → Q.
Variable matcher : list (list Q) → result (list Z).
Variable BELOW_LOW_THRESHOLD : Z.
Variable BETWEEN_THRESHOLDS : Z.
Variable boxlist_iou : list Box → list Box → list (list Q).
Variable Tensor : Type.
Variable concat_box_prediction_layers :
  list Tensor → list Tensor → list (list Q) * list Box.
Variable flatten_iou_pred : nat → list Tensor → list Q.
Variable WORLD_SIZE : option nat.
Variable all_reduce : Q → Q.

Local Abbreviation prepare :=
  (prepare_iou_based_targets encode matcher BELOW_LOW_THRESHOLD
     BETWEEN_THRESHOLDS boxlist_iou).
Local Abbreviation the_call :=
  (call TOPK reg_loss_type REG_LOSS_WEIGHT iou_loss_weight gmm decode encode
     cls_loss_func iou_pred_loss_func matcher BELOW_LOW_THRESHOLD
     BETWEEN_THRESHOLDS boxlist_iou Tensor concat_box_prediction_layers
     flatten_iou_pred WORLD_SIZE all_reduce).

(** The branch without positive anchors binds [reg_loss] only: the
    statement after the branch reads a variable that nothing has bound. *)
Lemma call_else_branch box_cls box_regression iou_pred targets anchors
      lbls regs ms ms' :
  prepare targets anchors = Ok (lbls, regs, ms) →
  cat_rows ms = Ok ms' → lbls ≠ [] → regs ≠ [] → anchors ≠ [] →
  Forall (λ l, (l ≤ 0)%Z) (concat lbls) →
  the_call box_cls box_regression iou_pred targets anchors
  = Raise (UnboundLocalError
             (match iou_pred with
              | Some _ => "sum_ious_targets_avg_per_gpu"
              | None => "num_pos_avg_per_gpu"
              end)).
Proof.
  intros Hprep Hcat Hl Hr Ha Hneg. unfold call. rewrite Hprep. simpl.
  rewrite Hcat. simpl.
  destruct lbls as [|l0 lbls]; [done|]. destruct regs as [|r0 regs]; [done|].
  destruct anchors as [|a0 anchors]; [done|].
  cbn [torch_cat mbind result_bind fmap list_fmap].
  destruct (concat_box_prediction_layers box_cls box_regression)
    as [box_cls_flatten box_regression_flatten].
  rewrite nonzero_all_false.
  2:{ intros j. rewrite list_lookup_fmap.
      destruct (concat (l0 :: lbls) !! j) as [l|] eqn:Hj; simpl; [|done].
      rewrite Forall_forall in Hneg.
      apply list_elem_of_lookup_2, Hneg in Hj.
      intros [= Hb]. apply bool_decide_eq_true in Hb. lia. }
  simpl. by destruct iou_pred.
Qed.

(** C2. Whenever the IoU-based labels of a batch hold no positive label,
    [__call__] raises: it returns neither a regression loss nor a
    classification loss. *)
Theorem call_without_positive_label_raises box_cls box_regression iou_pred
        targets anchors :
  (∀ lbls regs ms, prepare targets anchors = Ok (lbls, regs, ms) →
     Forall (λ l, (l ≤ 0)%Z) (concat lbls)) →
  is_raise (the_call box_cls box_regression iou_pred targets anchors).
Proof.
  intros Hneg. unfold call.
  destruct (prepare targets anchors) as [[[lbls regs] ms]|e] eqn:Hprep;
    [|by exists e].
  specialize (Hneg _ _ _ eq_refl). simpl.
  destruct (cat_rows ms) as [ms'|e]; [|by exists e]. simpl.
  destruct (torch_cat lbls) as [flat|e] eqn:Hflat; [|by exists e]. simpl.
  assert (flat = concat lbls) as ->.
  { destruct lbls; simpl in Hflat; [done|]. by injection Hflat as <-. }
  clear Hflat.
  destruct (torch_cat regs) as [rflat|e]; [|by exists e]. simpl.
  destruct (concat_box_prediction_layers box_cls box_regression)
    as [box_cls_flatten box_regression_flatten].
  destruct (torch_cat _) as [aflat|e]; [|by exists e]. simpl.
  rewrite nonzero_all_false.
  2:{ intros j. rewrite list_lookup_fmap.
      destruct (concat lbls !! j) as [l|] eqn:Hj; simpl; [|done].
      rewrite Forall_forall in Hneg.
      apply list_elem_of_lookup_2, Hneg in Hj.
      intros [= Hb]. apply bool_decide_eq_true in Hb. lia. }
  simpl. destruct iou_pred; by eexists.
Qed.

End CallFacts.

(** One image with one object of class 1 and two anchors that the matcher
    leaves unmatched: [__call__] raises at the read of
    [num_pos_avg_per_gpu]. *)
Example call_unmatched_anchors :
  call_with_stand_ins 2 two_predictions
    [mkBoxList xyxy [box_of 40 40 50 50] [1%Z]] [two_anchors]
  = Raise (UnboundLocalError "num_pos_avg_per_gpu").
Proof. vm_compute. reflexivity. Qed.

(** One image without objects: [prepare_iou_based_targets] raises already,
    at [targets_per_im[matched_idxs.clamp(min=0)]]. *)
Example call_without_objects :
  call_with_stand_ins 2 two_predictions [mkBoxList xyxy [] []] [two_anchors]
  = Raise IndexError.
Proof. vm_compute. reflexivity. Qed.

Lemma call_without_positive_label_raises_witness :
  is_raise (call_with_stand_ins 2 two_predictions
              [mkBoxList xyxy [box_of 40 40 50 50] [1%Z]] [two_anchors]).
Proof.
  apply call_without_positive_label_raises.
  intros lbls regs ms Hprep. vm_compute in Hprep.
  injection Hprep as <- _ _. repeat constructor; lia.
Defined.

(** * More of the engine *)

Section EngineMore.

Variable TOPK : nat.
Variable gmm : Q * Q → list Q → result fit_result.
Variable encode : Box → Box → Box.
Variable targets_per_im : BoxList.
Variable anchors_im : list (list Box).
Variable labels_all : list Z.
Variable loss_all : list Q.
Variable matched : list Z.

Local Abbreviation sel_cands :=
  (select_candidates TOPK targets_per_im anchors_im labels_all loss_all matched).
Local Abbreviation run :=
  (compute_paa_per_im TOPK gmm encode targets_per_im anchors_im labels_all
     loss_all matched).
Local Abbreviation fit_gts :=
  (fit_per_gt gmm targets_per_im anchors_im loss_all matched).
Local Abbreviation loop := (paa_loop gmm targets_per_im loss_all).
Local Abbreviation pos_of := (positives_of gmm loss_all).
Local Abbreviation n_labels := (length (concat anchors_im)).

(** [matched_gts] before the loop holds, at an anchor with a non-negative
    matched index, the box of that index. *)
Lemma fill_matched_gts_lookup ms gts a m :
  fill_matched_gts targets_per_im ms = Ok gts →
  ms !! a = Some m → (0 ≤ m)%Z →
  gts !! a = bbox targets_per_im !! Z.to_nat m.
Proof.
  revert gts a. induction ms as [|m0 ms IH]; intros gts a; simpl; [done|].
  intros H. inv_bind H. inv_bind H. injection H as <-.
  destruct a as [|a]; simpl.
  - intros [= ->] Hm. rewrite decide_True in Ha by done.
    apply getitem_Ok in Ha. done.
  - intros Hm Hpos. by apply IH.
Qed.

(** The loop writes into [matched_gts] what is there already: the
    positives of an object are anchors matched to it. *)
Lemma paa_loop_keeps_boxes cands gts0 l st st' :
  sel_cands = Ok cands →
  fill_matched_gts targets_per_im matched = Ok gts0 →
  is_grey st = None → matched_gts st = gts0 →
  loop cands l st = Ok st' → matched_gts st' = gts0.
Proof.
  intros Hsel Hfill. revert st. induction l as [|g l IH]; intros st Hg H0 H.
  { simpl in H. by injection H as <-. }
  simpl in H. inv_bind H. rename a into st1.
  apply (IH st1); [by eapply paa_step_grey| |done]. clear IH H.
  destruct (cands !! g) as [[cand|]|] eqn:Hc.
  - destruct (paa_step_spec _ _ _ _ _ _ _ _ Hg Hc Ha)
      as (pos & neg & cls & box & Hp & _ & _ & Hbox & _ & _ & Hlen & _ & Hb & Hr).
    apply list_eq. intros a. rewrite Hb, H0.
    destruct (decide (a ∈ pos)) as [Hin|]; [|done].
    destruct (Hr a Hin) as [_ Hr2]. rewrite H0 in Hr2.
    destruct (lookup_lt_is_Some_2 _ _ Hr2) as [b0 Hb0]. rewrite Hb0. simpl.
    destruct (marks_positive_matched TOPK gmm targets_per_im anchors_im
                labels_all loss_all matched cands g a Hsel) as [Hm _].
    { by exists cand, pos. }
    rewrite (fill_matched_gts_lookup _ _ _ _ Hfill Hm) in Hb0 by lia.
    rewrite Nat2Z.id in Hb0. congruence.
  - rewrite paa_step_skip in Ha by done. by injection Ha as <-.
  - unfold paa_step, getitem in Ha. by rewrite Hc in Ha.
Qed.

(** X1. The regression targets that the engine returns do not depend on
    the mixture fit or on the scores: they are the encodings of the boxes
    of the IoU-based matched indices (zeros for an unmatched anchor), as
    [matched_gts] held them before the loop over the objects. *)
Theorem regression_targets_are_iou_based lbls regs :
  compute_paa_per_im TOPK gmm encode targets_per_im anchors_im labels_all
    loss_all matched = Ok (lbls, regs) →
  ∃ gts0, init_matched_gts targets_per_im anchors_im matched = Ok gts0 ∧
          regs = zip_with encode gts0 (concat anchors_im).
Proof.
  intros Hrun.
  destruct (compute_paa_per_im_inv _ _ _ _ _ _ _ _ _ _ Hrun)
    as (_ & _ & cands & st & Hsel & Hst & _ & ->).
  unfold fit_per_gt in Hst. inv_bind Hst. rename a into gts0.
  exists gts0. split; [done|]. f_equal.
  unfold init_matched_gts in Ha. destruct (decide _); [|done].
  eapply paa_loop_keeps_boxes; [exact Hsel|exact Ha| | |exact Hst]; done.
Qed.

(** Whatever the fit returns, the positives of an object with two or
    more candidates are a non-empty prefix of its sorted candidates. *)
Lemma positives_are_prefix cand pos :
  1 < length cand → pos_of cand = Ok pos →
  ∃ sorted k, sorted_candidates loss_all cand = Ok sorted ∧
              length sorted = length cand ∧ pos = take (S k) sorted.
Proof.
  intros Hlen. unfold positives_of, partition_candidates.
  rewrite decide_True by done. intros H.
  inv_bind H. destruct a as [[is_pos is_neg] grey].
  inv_bind Ha. rename a into closs. simpl in Ha.
  destruct (sorted_candidates_is_ok loss_all cand closs Ha0)
    as (sorted & Hs & Hsel & Hls).
  simpl in Hsel.
  inv_bind Ha. inv_bind Ha. inv_bind Ha. destruct a1 as [comps scores].
  exists sorted.
  destruct (decide (0 < length _)).
  - inv_bind Ha. inv_bind Ha. inv_bind Ha. inv_bind Ha. inv_bind Ha.
    inv_bind Ha. injection Ha as <- _ _. simpl in H.
    match type of H with
    | index_select _ (take (?k + 1) _) = _ =>
        exists k; split_and!; [done..|];
        rewrite (index_select_take _ _ _ (k + 1) Hsel) in H;
        injection H as <-; f_equal; lia
    end.
  - injection Ha as <- _ _. simpl in H.
    exists (length sorted). split_and!; [done..|].
    rewrite take_ge by lia. congruence.
Qed.

(** X2. In a run that returned, every object with a candidate keeps a
    positive anchor: a candidate whose score no other candidate of the
    object undercuts ends with the class of the object. *)
Theorem best_candidate_is_positive lbls regs cands g cand cls :
  compute_paa_per_im TOPK gmm encode targets_per_im anchors_im labels_all
    loss_all matched = Ok (lbls, regs) →
  sel_cands = Ok cands → cands !! g = Some (Some cand) →
  labels targets_per_im !! g = Some cls →
  ∃ a, a ∈ cand ∧ lbls !! a = Some cls ∧
       ∀ b x y, b ∈ cand → loss_all !! a = Some x → loss_all !! b = Some y →
                (x <= y)%Q.
Proof.
  intros Hrun Hsel Hc Hcls.
  destruct (compute_paa_per_im_inv _ _ _ _ _ _ _ _ _ _ Hrun)
    as (_ & _ & cands' & st & Hsel' & Hst & -> & _).
  assert (cands' = cands) as -> by congruence.
  destruct (engine_candidate_labels _ _ _ _ _ _ _ _ _ _ _ Hsel Hst Hc)
    as (pos & cls' & box & Hpos & Hcls' & _ & Hlab).
  assert (cls' = cls) as -> by congruence.
  destruct cand as [|a0 [|a1 cand']].
  - exfalso.
    destruct (fit_per_gt_inv _ _ _ _ _ _ _ Hst) as (gts0 & _ & Hloop & _).
    destruct (paa_loop_raise gmm targets_per_im loss_all cands
                (seq 0 (length (bbox targets_per_im))) g
                (mkState (replicate n_labels 0%Z) gts0 None)) as [e He].
    + apply elem_of_seq.
      destruct (select_candidates_spec _ _ _ _ _ _ _ Hsel) as [Hn _].
      apply lookup_lt_Some in Hc. lia.
    + intros st0. by apply paa_step_empty_raises.
    + congruence.
  - destruct (positives_single gmm loss_all a0) as [Hp _].
    assert (pos = [a0]) as -> by congruence.
    exists a0. destruct (Hlab a0) as [Hl _]; [by left|].
    rewrite decide_True in Hl by (by left). split_and!; [by left|done|].
    intros b x y ->%list_elem_of_singleton Hx Hy.
    assert (x = y) as -> by congruence. apply Qle_refl.
  - destruct (positives_are_prefix (a0 :: a1 :: cand') pos) as (sorted & k & Hs & Hls & ->);
      [simpl; lia|done|].
    destruct (sorted_candidates_spec _ _ _ Hs) as [Hperm Hasc].
    destruct (lookup_lt_is_Some_2 sorted 0) as [a Ha]; [simpl in Hls; lia|].
    assert (a ∈ a0 :: a1 :: cand') as Hin.
    { rewrite <- Hperm. by eapply list_elem_of_lookup_2. }
    exists a. destruct (Hlab a Hin) as [Hl _].
    rewrite decide_True in Hl.
    2:{ apply elem_of_take. exists 0. split; [done|lia]. }
    split_and!; [done..|].
    intros b x y Hb Hx Hy. rewrite <- Hperm in Hb.
    apply list_elem_of_lookup in Hb as [kb Hkb].
    apply (Hasc 0 kb a b x y); [lia|done..].
Qed.

(** X3. The engine never promotes an anchor: an anchor that is eligible
    for no object (its IoU-based label is not positive, or its matched
    index is no object) ends as background. *)
Theorem ineligible_anchor_is_background lbls regs a :
  compute_paa_per_im TOPK gmm encode targets_per_im anchors_im labels_all
    loss_all matched = Ok (lbls, regs) →
  a < length (concat anchors_im) →
  (∀ g, ¬ eligible labels_all matched g a) →
  lbls !! a = Some 0%Z.
Proof.
  intros Hrun Ha Hno.
  destruct (compute_paa_per_im_inv _ _ _ _ _ _ _ _ _ _ Hrun)
    as (_ & _ & cands & st & Hsel & Hst & -> & _).
  destruct (fit_per_gt_inv _ _ _ _ _ _ _ Hst) as (gts0 & _ & Hloop & _).
  destruct (select_candidates_spec _ _ _ _ _ _ _ Hsel) as [_ Hof].
  destruct (paa_loop_frame gmm targets_per_im loss_all cands _
              (mkState (replicate n_labels 0%Z) gts0 None) st a eq_refl Hloop)
    as (_ & _ & _ & -> & _).
  - intros g c _ Hc Hin.
    destruct (candidate_idxs_of_spec _ _ _ _ _ _ _ (Hof _ _ Hc)) as (H1 & _).
    destruct (H1 a Hin) as [_ He]. by apply (Hno g).
  - simpl. by apply lookup_replicate_2.
Qed.

End EngineMore.

(** ** The engine on a batch *)



(** ** The additional statements on the small image *)

Lemma regression_targets_are_iou_based_witness :
  ∃ gts0, init_matched_gts scene_targets scene_anchors scene_matched = Ok gts0 ∧
    [box_of 0 0 2 2; box_of (-1) (-1) 0 0; box_of 0 0 4 4;
     box_of (-2) (-2) (-2) (-2); box_of 4 4 0 0; box_of 2 2 (-4) (-4)]
    = zip_with offset_encode gts0 (concat scene_anchors).
Proof.
  apply (regression_targets_are_iou_based 3 nearest_mean_fit offset_encode
           scene_targets scene_anchors scene_labels_all scene_loss
           scene_matched [0; 3; 5; 0; 0; 7]%Z).
  vm_compute. reflexivity.
Defined.

Lemma best_candidate_is_positive_witness :
  ∃ a, a ∈ [1; 0; 3] ∧ [0; 3; 5; 0; 0; 7]%Z !! a = Some 3%Z ∧
       ∀ b x y, b ∈ [1; 0; 3] → scene_loss !! a = Some x →
                scene_loss !! b = Some y → (x <= y)%Q.
Proof.
  eassert (compute_paa_per_im 3 nearest_mean_fit offset_encode scene_targets
             scene_anchors scene_labels_all scene_loss scene_matched
           = Ok ([0; 3; 5; 0; 0; 7]%Z, _)) as Hrun by (vm_compute; reflexivity).
  eassert (select_candidates 3 scene_targets scene_anchors scene_labels_all
             scene_loss scene_matched = Ok _) as Hsel
    by (vm_compute; reflexivity).
  apply (best_candidate_is_positive _ _ _ _ _ _ _ _ _ _ _ 0 [1; 0; 3] 3%Z
           Hrun Hsel); reflexivity.
Defined.

Lemma ineligible_anchor_is_background_witness :
  compute_paa_per_im 3 background_fit offset_encode scene_targets
    scene_anchors [3; 0; 5; 3; 5; 7]%Z scene_loss scene_matched
  = Ok ([3; 0; 5; 3; 5; 7]%Z,
        [box_of 0 0 2 2; box_of (-1) (-1) 0 0; box_of 0 0 4 4;
         box_of (-2) (-2) (-2) (-2); box_of 4 4 0 0; box_of 2 2 (-4) (-4)]) ∧
  [3; 0; 5; 3; 5; 7]%Z !! 1 = Some 0%Z.
Proof.
  assert (compute_paa_per_im 3 background_fit offset_encode scene_targets
            scene_anchors [3; 0; 5; 3; 5; 7]%Z scene_loss scene_matched
          = Ok ([3; 0; 5; 3; 5; 7]%Z,
                [box_of 0 0 2 2; box_of (-1) (-1) 0 0; box_of 0 0 4 4;
                 box_of (-2) (-2) (-2) (-2); box_of 4 4 0 0; box_of 2 2 (-4) (-4)]))
    as Hrun by (vm_compute; reflexivity).
  split; [exact Hrun|].
  apply (ineligible_anchor_is_background _ _ _ _ _ _ _ _ _ _ 1 Hrun).
  - simpl. lia.
  - intros g [_ (l & Hl & Hpos)]. simpl in Hl. injection Hl as <-. lia.
Defined.


(** ** More of the box arithmetic *)

Section BoxArithmetic.

Local Open Scope Q_scope.

(** The clipped overlap of two intervals, as [compute_ious] takes it. *)
Lemma clipped_overlap_bounds lo1 hi1 lo2 hi2 :
  lo1 <= hi1 → lo2 <= hi2 →
  0 <= Qmax (Qmin hi1 hi2 - Qmax lo1 lo2 + 1) 0 ∧
  Qmax (Qmin hi1 hi2 - Qmax lo1 lo2 + 1) 0 <= hi1 - lo1 + 1 ∧
  Qmax (Qmin hi1 hi2 - Qmax lo1 lo2 + 1) 0 <= hi2 - lo2 + 1.
Proof.
  intros H1 H2.
  pose proof (Q.le_min_l hi1 hi2). pose proof (Q.le_min_r hi1 hi2).
  pose proof (Q.le_max_l lo1 lo2). pose proof (Q.le_max_r lo1 lo2).
  set (m := Qmin hi1 hi2) in *. set (M := Qmax lo1 lo2) in *.
  clearbody m M.
  split_and!.
  - apply Q.le_max_r.
  - apply Q.max_lub; lra.
  - apply Q.max_lub; lra.
Qed.

(** X5. For two boxes with [x1 <= x2] and [y1 <= y2], [compute_ious]
    gives a value between 0 and 1, and it gives 1 for a box against
    itself. *)
Theorem compute_ious_row_bounds b1 b2 :
  bx1 b1 <= bx2 b1 → by1 b1 <= by2 b1 →
  bx1 b2 <= bx2 b2 → by1 b2 <= by2 b2 →
  0 <= compute_ious_row b1 b2 ∧ compute_ious_row b1 b2 <= 1 ∧
  compute_ious_row b1 b1 == 1.
Proof.
  destruct b1 as [x1 y1 x2 y2], b2 as [u1 v1 u2 v2]. simpl.
  intros Hx Hy Hu Hv. unfold compute_ious_row. simpl.
  destruct (clipped_overlap_bounds x1 x2 u1 u2 Hx Hu) as (Hw0 & Hw1 & Hw2).
  destruct (clipped_overlap_bounds y1 y2 v1 v2 Hy Hv) as (Hh0 & Hh1 & Hh2).
  set (w := Qmax (Qmin x2 u2 - Qmax x1 u1 + 1) 0) in *.
  set (h := Qmax (Qmin y2 v2 - Qmax y1 v1 + 1) 0) in *.
  clearbody w h.
  assert (w * h <= (x2 - x1 + 1) * (y2 - y1 + 1)) by nra.
  assert (w * h <= (u2 - u1 + 1) * (v2 - v1 + 1)) by nra.
  assert (1 <= (x2 - x1 + 1) * (y2 - y1 + 1)) by nra.
  assert (0 <= w * h) by nra.
  split_and!.
  - apply Qle_shift_div_l; lra.
  - apply Qle_shift_div_r; lra.
  - assert (Qmax (Qmin x2 x2 - Qmax x1 x1 + 1) 0 == x2 - x1 + 1) as ->.
    { rewrite Q.min_id, Q.max_id. apply Q.max_l. lra. }
    assert (Qmax (Qmin y2 y2 - Qmax y1 y1 + 1) 0 == y2 - y1 + 1) as ->.
    { rewrite Q.min_id, Q.max_id. apply Q.max_l. lra. }
    field. lra.
Qed.

(** X6. [compute_ious] does not depend on the order of its two boxes. *)
Theorem compute_ious_row_sym b1 b2 :
  compute_ious_row b1 b2 == compute_ious_row b2 b1.
Proof.
  destruct b1 as [x1 y1 x2 y2], b2 as [u1 v1 u2 v2].
  unfold compute_ious_row. simpl.
  rewrite (Q.min_comm u2 x2), (Q.max_comm u1 x1),
          (Q.min_comm v2 y2), (Q.max_comm v1 y1).
  set (w := Qmax (Qmin x2 u2 - Qmax x1 u1 + 1) 0).
  set (h := Qmax (Qmin y2 v2 - Qmax y1 v1 + 1) 0). clearbody w h.
  assert ((x2 - x1 + 1) * (y2 - y1 + 1) + (u2 - u1 + 1) * (v2 - v1 + 1) - w * h
          == (u2 - u1 + 1) * (v2 - v1 + 1) + (x2 - x1 + 1) * (y2 - y1 + 1) - w * h)
    as -> by ring.
  reflexivity.
Qed.


End BoxArithmetic.

Lemma compute_ious_row_bounds_witness :
  (bx1 (box_of 0 0 2 2) <= bx2 (box_of 0 0 2 2))%Q ∧
  (0 <= compute_ious_row (box_of 0 0 2 2) (box_of 1 1 3 3))%Q ∧
  (compute_ious_row (box_of 0 0 2 2) (box_of 1 1 3 3) <= 1)%Q ∧
  (compute_ious_row (box_of 0 0 2 2) (box_of 0 0 2 2) == 1)%Q.
Proof.
  split; [by vm_compute|].
  apply (compute_ious_row_bounds (box_of 0 0 2 2) (box_of 1 1 3 3));
    by vm_compute.
Defined.


(** ** More of the loss aggregation *)

Lemma length_filter_mask {A} (t : list A) (P : Z → Prop) `{∀ l, Decision (P l)}
      (lbls : list Z) :
  length lbls = length t →
  length (filter_mask t (map (λ l, bool_decide (P l)) lbls))
  = length (filter P lbls).
Proof.
  revert t. induction lbls as [|l lbls IH]; intros t Hlen.
  { by destruct t. }
  destruct t as [|x t]; [done|]. simpl in *.
  destruct (decide (P l)) as [Hp|Hp].
  - rewrite bool_decide_eq_true_2, filter_cons_True by done. simpl.
    f_equal. apply IH. lia.
  - rewrite bool_decide_eq_false_2, filter_cons_False by done.
    apply IH. lia.
Qed.

(** X8. [compute_reg_loss] returns for a loss type that contains "iou"
    only, and then with one loss per positive label; for "smoothl1" it
    raises at the read of [self.bbox_reg_beta], which the class never
    sets, and for every other type it raises [NotImplementedError]. *)
Theorem compute_reg_loss_cases decode reg_loss_type targets box_regression
        anchors lbls weights :
  (∀ r, compute_reg_loss decode reg_loss_type targets box_regression anchors
          lbls weights = Ok r →
        is_Some (String.index 0 "iou" reg_loss_type) ∧
        length r = length (filter (λ l, (0 < l)%Z) lbls)) ∧
  (String.index 0 "iou" reg_loss_type = None →
     compute_reg_loss decode reg_loss_type targets box_regression anchors
       lbls weights
     = Raise (if bool_decide (reg_loss_type = "smoothl1")
              then AttributeError else NotImplementedError)).
Proof.
  unfold compute_reg_loss. split.
  - intros r H. inv_bind H. rename a into reg_loss.
    destruct (bool_decide (is_Some _)) eqn:Hiou.
    2:{ by destruct (bool_decide (reg_loss_type = _)). }
    apply bool_decide_eq_true in Hiou. split; [done|].
    unfold mask_select in H. destruct (decide _) as [Hlen|]; [|done].
    injection H as <-. rewrite length_map in Hlen.
    by apply length_filter_mask.
  - intros Hnone. rewrite Hnone.
    rewrite bool_decide_eq_false_2 by (by intros [? ?]).
    by destruct (bool_decide (reg_loss_type = _)).
Qed.

Section PrepareFacts.

Variable encode : Box → Box → Box.
Variable matcher : list (list Q) → result (list Z).
Variable BELOW_LOW_THRESHOLD : Z.
Variable BETWEEN_THRESHOLDS : Z.
Variable boxlist_iou : list Box → list Box → list (list Q).

Local Abbreviation prepare_im :=
  (prepare_iou_based_targets_per_im encode matcher BELOW_LOW_THRESHOLD
     BETWEEN_THRESHOLDS boxlist_iou).

(** What a returned IoU-based pass computed for an image. *)
Lemma prepare_im_spec targets_per_im anchors_im lbls regs ms :
  prepare_im targets_per_im anchors_im = Ok (lbls, regs, ms) →
  matcher (boxlist_iou (bbox targets_per_im) (concat anchors_im)) = Ok ms ∧
  length lbls = length ms ∧
  ∀ a m, ms !! a = Some m →
    ∃ cls, labels targets_per_im !! Z.to_nat (Z.max m 0) = Some cls ∧
      lbls !! a = Some (if bool_decide (m = BETWEEN_THRESHOLDS) then (-1)%Z
                        else if bool_decide (m = BELOW_LOW_THRESHOLD) then 0%Z
                        else cls).
Proof.
  unfold prepare_iou_based_targets_per_im. intros H.
  inv_bind H. rename a into u, Ha into Hmode.
  inv_bind H. rename a into ms', Ha into Hms.
  inv_bind H. rename a into mlbls, Ha into Ha1.
  inv_bind H. rename a into mgts. injection H as <- <- <-.
  pose proof (index_select_length _ _ _ Ha1) as Hlen.
  rewrite length_map in Hlen.
  split_and!; [done| |].
  - rewrite length_zip_with. lia.
  - intros a m Hm.
    assert (map (λ m0, Z.to_nat (Z.max m0 0)) ms' !! a
            = Some (Z.to_nat (Z.max m 0))) as Hc.
    { by rewrite list_lookup_fmap, Hm. }
    pose proof (index_select_lookup _ _ _ _ _ Ha1 Hc) as Hl.
    destruct (lookup_lt_is_Some_2 mlbls a) as [cls Hcls].
    { apply lookup_lt_Some in Hm. lia. }
    exists cls. split; [congruence|].
    apply lookup_zip_with_Some. by exists m, cls.
Qed.


(** X10. For an image without objects and with at least one matched
    index, the IoU-based pass raises [IndexError]: it reads the class of
    object 0, the clamp of every sentinel. *)
Theorem prepare_without_objects_raises targets_per_im anchors_im ms :
  mode targets_per_im = xyxy → labels targets_per_im = [] →
  matcher (boxlist_iou (bbox targets_per_im) (concat anchors_im)) = Ok ms →
  ms ≠ [] →
  prepare_iou_based_targets_per_im encode matcher BELOW_LOW_THRESHOLD
    BETWEEN_THRESHOLDS boxlist_iou
    targets_per_im anchors_im = Raise IndexError.
Proof.
  intros Hmode Hl Hm Hne. unfold prepare_iou_based_targets_per_im.
  rewrite Hmode, Hm, Hl. simpl.
  destruct ms as [|m ms]; [done|]. done.
Qed.

(** X11. The two passes composed: when the sentinels of the matcher are
    negative and the engine runs on the labels and matched indices of the
    IoU-based pass, every final label is background or the IoU-based
    label of the anchor.  The engine demotes anchors; it never gives an
    anchor another class. *)
Theorem engine_keeps_or_demotes TOPK gmm encode' targets_per_im anchors_im
        loss_all lbls0 regs0 ms lbls regs :
  (BELOW_LOW_THRESHOLD < 0)%Z → (BETWEEN_THRESHOLDS < 0)%Z →
  prepare_iou_based_targets_per_im encode matcher BELOW_LOW_THRESHOLD
    BETWEEN_THRESHOLDS boxlist_iou
    targets_per_im anchors_im = Ok (lbls0, regs0, ms) →
  compute_paa_per_im TOPK gmm encode' targets_per_im anchors_im lbls0 loss_all
    ms = Ok (lbls, regs) →
  ∀ a lb, lbls !! a = Some lb → lb = 0%Z ∨ lbls0 !! a = Some lb.
Proof.
  intros Hb1 Hb2 Hprep Hrun a lb Hlb.
  destruct (decide (lb = 0%Z)) as [->|Hnz]; [by left|right].
  destruct (prepare_im_spec _ _ _ _ _ Hprep) as (_ & _ & Hall).
  destruct (compute_paa_per_im_inv _ _ _ _ _ _ _ _ _ _ Hrun)
    as (_ & _ & cands & st & Hsel & Hst & -> & _).
  destruct (fit_per_gt_inv _ _ _ _ _ _ _ Hst) as (gts0 & _ & Hloop & _).
  destruct (paa_loop_provenance gmm targets_per_im loss_all cands _
              (mkState (replicate (length (concat anchors_im)) 0%Z) gts0 None)
              st eq_refl Hloop)
    with (a := a) (lb := lb) as (g & box & Hm & Hcls & _); [|done..|].
  { simpl. intros a' lb' [-> _]%lookup_replicate. done. }
  destruct (marks_positive_matched _ _ _ _ _ _ _ _ _ _ Hsel Hm) as [Hg _].
  destruct (Hall a _ Hg) as (cls & Hcls' & ->).
  rewrite Z.max_l, Nat2Z.id in Hcls' by lia.
  rewrite !bool_decide_eq_false_2 by lia. congruence.
Qed.

End PrepareFacts.

Lemma compute_reg_loss_cases_witness :
  length [3 # 1; 4 # 1]%Q = length (filter (λ l, (0 < l)%Z) [1; 0; 2]%Z) ∧
  compute_reg_loss offset_decode "smoothl1" [] [] [] [] None
  = Raise AttributeError.
Proof.
  destruct (compute_reg_loss_cases offset_decode "giou"
              [box_of 1 1 3 3; box_of 0 0 1 1; box_of 0 0 2 2]
              [box_of 0 0 2 2; box_of 0 0 1 1; box_of 0 0 2 2]
              [zero_box; zero_box; zero_box] [1; 0; 2]%Z
              (Some [3 # 1; 4 # 1; 4 # 1]%Q)) as [Hok _].
  destruct (compute_reg_loss offset_decode "giou" _ _ _ _ _) as [r|e] eqn:Hr;
    [|by vm_compute in Hr].
  destruct (Hok r eq_refl) as [_ Hlen]. split.
  - rewrite <- Hlen. vm_compute in Hr. by injection Hr as <-.
  - by apply (compute_reg_loss_cases offset_decode "smoothl1").
Defined.


Lemma prepare_without_objects_raises_witness :
  prepare_iou_based_targets_per_im offset_encode (unmatched_matcher 2)
    (-1)%Z (-2)%Z zero_iou (mkBoxList xyxy [] []) two_anchors
  = Raise IndexError.
Proof.
  by apply (prepare_without_objects_raises offset_encode (unmatched_matcher 2)
              (-1)%Z (-2)%Z zero_iou (mkBoxList xyxy [] []) two_anchors
              [-1; -1]%Z).
Defined.

Lemma engine_keeps_or_demotes_witness :
  Forall2 (λ lb lb0, lb = 0%Z ∨ lb0 = lb)
    [0; 3; 5; 0; 0; 7]%Z [3; 3; 5; 3; 5; 7]%Z.
Proof.
  eassert (prepare_iou_based_targets_per_im offset_encode
             (fixed_matcher scene_matched) (-1)%Z (-2)%Z zero_iou
             scene_targets scene_anchors
           = Ok ([3; 3; 5; 3; 5; 7]%Z, _, scene_matched)) as Hprep
    by (vm_compute; reflexivity).
  eassert (compute_paa_per_im 3 nearest_mean_fit offset_encode scene_targets
             scene_anchors [3; 3; 5; 3; 5; 7]%Z scene_loss scene_matched
           = Ok ([0; 3; 5; 0; 0; 7]%Z, _)) as Hrun by (vm_compute; reflexivity).
  pose proof (engine_keeps_or_demotes offset_encode
                (fixed_matcher scene_matched) (-1)%Z (-2)%Z zero_iou 3
                nearest_mean_fit offset_encode scene_targets scene_anchors
                scene_loss _ _ _ _ _ ltac:(lia) ltac:(lia) Hprep Hrun) as Hall.
  apply Forall2_same_length_lookup. split; [done|].
  intros a lb lb0 Hlb Hlb0. destruct (Hall a lb Hlb) as [->|H]; [by left|].
  right. congruence.
Defined.

Section CallMore.

Variable TOPK : nat.
Variable reg_loss_type : string.
Variable REG_LOSS_WEIGHT : Q.
Variable iou_loss_weight : Q.
Variable gmm : Q * Q → list Q → result fit_result.
Variable decode : Box → Box → Box.
Variable encode : Box → Box → Box.
Variable cls_loss_func : list (list Q) → list Z → list (list Q).
Variable iou_pred_loss_func : list Q → list Q → Q.
Variable matcher : list (list Q) → result (list Z).
Variable BELOW_LOW_THRESHOLD : Z.
Variable BETWEEN_THRESHOLDS : Z.
Variable boxlist_iou : list Box → list Box → list (list Q).
Variable Tensor : Type.
Variable concat_box_prediction_layers :
  list Tensor → list Tensor → list (list Q) * list Box.
Variable flatten_iou_pred : nat → list Tensor → list Q.
Variable WORLD_SIZE : option nat.
Variable all_reduce : Q → Q.

Local Abbreviation the_call :=
  (call TOPK reg_loss_type REG_LOSS_WEIGHT iou_loss_weight gmm decode encode
     cls_loss_func iou_pred_loss_func matcher BELOW_LOW_THRESHOLD
     BETWEEN_THRESHOLDS boxlist_iou Tensor concat_box_prediction_layers
     flatten_iou_pred WORLD_SIZE all_reduce).


End CallMore.


(** ** The locations of the feature maps *)

Lemma arange_multiple n stride :
  0 < stride → arange (n * stride) stride = Ok (map (λ k, k * stride) (seq 0 n)).
Proof.
  intros Hs. unfold arange. rewrite decide_False by lia. do 3 f_equal.
  replace (n * stride + stride - 1) with (stride - 1 + n * stride) by lia.
  rewrite Nat.div_add by lia. rewrite Nat.div_small by lia. done.
Qed.

Lemma concat_const_rows {A} (xs : list A) n :
  length (concat (map (λ _ : nat, xs) (seq 0 n))) = n * length xs.
Proof.
  generalize 0. induction n as [|n IH]; intros s; simpl; [done|].
  rewrite length_app, IH. done.
Qed.

Lemma grid_rows_length {A} (f : nat → nat → A) (xs : list nat) (ys : list nat) :
  length (zip_with f (concat (map (λ _ : nat, xs) ys))
            (concat (map (λ y, map (λ _ : nat, y) xs) ys)))
  = length ys * length xs.
Proof.
  induction ys as [|y ys IH]; simpl; [done|].
  rewrite zip_with_app by (by rewrite length_map).
  rewrite length_app, IH, length_zip_with, length_map. lia.
Qed.

Lemma grid_rows_lookup {A} (f : nat → nat → A) (xs ys : list nat) i j x y :
  ys !! i = Some y → xs !! j = Some x →
  zip_with f (concat (map (λ _ : nat, xs) ys))
    (concat (map (λ y, map (λ _ : nat, y) xs) ys))
  !! (i * length xs + j)
  = Some (f x y).
Proof.
  revert i. induction ys as [|y0 ys IH]; intros i Hy Hx; [done|]. simpl.
  rewrite zip_with_app by (by rewrite length_map).
  assert (length (zip_with f xs (map (λ _ : nat, y0) xs)) = length xs) as Hrow.
  { rewrite length_zip_with, length_map. lia. }
  apply lookup_lt_Some in Hx as Hj.
  destruct i as [|i].
  - simpl in *. injection Hy as ->. rewrite lookup_app_l by lia.
    apply lookup_zip_with_Some. exists x, y. split_and!; [done..|].
    by rewrite list_lookup_fmap, Hx.
  - rewrite lookup_app_r by (rewrite Hrow; lia). rewrite Hrow.
    replace (S i * length xs + j - length xs) with (i * length xs + j) by lia.
    by apply IH.
Qed.

(** The grid of one level, for the statements on one level and on all. *)
Lemma locations_per_level_spec h w stride :
  0 < stride →
  ∃ locs, compute_locations_per_level h w stride = Ok locs ∧
    length locs = h * w ∧
    ∀ i j, i < h → j < w →
      locs !! (i * w + j)
      = Some (j * stride + stride `div` 2, i * stride + stride `div` 2).
Proof.
  intros Hs. unfold compute_locations_per_level.
  rewrite !arange_multiple by done. simpl.
  eexists. split; [done|].
  set (xs := map (λ k, k * stride) (seq 0 w)).
  set (ys := map (λ k, k * stride) (seq 0 h)).
  assert (length xs = w) as Hxs by (unfold xs; by rewrite length_map, length_seq).
  assert (length ys = h) as Hys by (unfold ys; by rewrite length_map, length_seq).
  split.
  - by rewrite grid_rows_length, Hxs, Hys.
  - intros i j Hi Hj. rewrite <- Hxs at 1.
    apply (grid_rows_lookup (λ x y, (x + stride `div` 2, y + stride `div` 2))).
    + unfold ys. by rewrite list_lookup_fmap, lookup_seq_lt.
    + unfold xs. by rewrite list_lookup_fmap, lookup_seq_lt.
Qed.

(** X13. For a positive stride, [compute_locations_per_level] returns
    [h * w] locations in row-major order: the location of row [i] and
    column [j] is at index [i * w + j] and is the point
    [(j * stride + stride // 2, i * stride + stride // 2)]. *)
Theorem locations_per_level_grid h w stride :
  0 < stride →
  ∃ locs, compute_locations_per_level h w stride = Ok locs ∧
    length locs = h * w ∧
    ∀ i j, i < h → j < w →
      locs !! (i * w + j)
      = Some (j * stride + stride `div` 2, i * stride + stride `div` 2).
Proof.
  intros Hs.
  destruct (locations_per_level_spec h w stride Hs) as (locs & Hrun & Hlen & Hat).
  exists locs. split_and!; [exact Hrun|exact Hlen|].
  intros i j Hi Hj. by apply Hat.
Qed.

Lemma locations_per_level_grid_witness :
  0 < 8 ∧
  ∃ locs, compute_locations_per_level 2 3 8 = Ok locs ∧
    length locs = 2 * 3 ∧
    ∀ i j, i < 2 → j < 3 →
      locs !! (i * 3 + j) = Some (j * 8 + 8 `div` 2, i * 8 + 8 `div` 2).
Proof.
  split; [lia|]. apply (locations_per_level_grid 2 3 8). lia.
Defined.

(** X14. The locations of one level are pairwise distinct when the stride
    is positive, and each lies inside the cell of its feature position:
    a location is [(j * stride + stride // 2, i * stride + stride // 2)]
    for exactly one row [i < h] and column [j < w]. *)
Theorem locations_per_level_distinct h w stride locs :
  0 < stride →
  compute_locations_per_level h w stride = Ok locs →
  NoDup locs ∧
  ∀ x y, (x, y) ∈ locs →
    x < w * stride ∧ y < h * stride ∧
    x `mod` stride = stride `div` 2 ∧ y `mod` stride = stride `div` 2.
Proof.
  intros Hs Hrun.
  destruct (locations_per_level_spec h w stride Hs) as (locs' & Hrun' & Hlen & Hat).
  rewrite Hrun in Hrun'. injection Hrun' as <-.
  assert (stride `div` 2 < stride) as Hhalf by (apply Nat.div_lt; lia).
  assert (∀ k, k < length locs →
            locs !! k = Some ((k `mod` w) * stride + stride `div` 2,
                              (k `div` w) * stride + stride `div` 2)
            ∧ k `mod` w < w ∧ k `div` w < h) as Hk.
  { intros k Hlt. rewrite Hlen in Hlt.
    assert (0 < w) as Hw by (destruct w; lia).
    assert (k `mod` w < w) by (apply Nat.mod_upper_bound; lia).
    assert (k `div` w < h) by (apply Nat.Div0.div_lt_upper_bound; lia).
    split; [|done].
    rewrite <- Hat by done. f_equal.
    rewrite (Nat.div_mod_eq k w) at 1. lia. }
  split.
  - apply NoDup_alt. intros k1 k2 p H1 H2.
    destruct (Hk k1) as (E1 & ? & ?); [by eapply lookup_lt_Some|].
    destruct (Hk k2) as (E2 & ? & ?); [by eapply lookup_lt_Some|].
    rewrite H1 in E1. rewrite H2 in E2. rewrite E1 in E2.
    injection E2 as Ex Ey.
    assert (k1 `mod` w = k2 `mod` w) as Em by nia.
    assert (k1 `div` w = k2 `div` w) as Ed by nia.
    rewrite (Nat.div_mod_eq k1 w), (Nat.div_mod_eq k2 w). by rewrite Em, Ed.
  - intros x y [k Hlk]%list_elem_of_lookup.
    destruct (Hk k) as (E & Hm & Hd); [by eapply lookup_lt_Some|].
    rewrite Hlk in E. injection E as -> ->.
    change (Nat.divmod stride 1 0 1).1 with (stride `div` 2).
    assert ((k `mod` w + 1) * stride ≤ w * stride)
      by (apply Nat.mul_le_mono_r; lia).
    assert ((k `div` w + 1) * stride ≤ h * stride)
      by (apply Nat.mul_le_mono_r; lia).
    split_and!.
    + clear -Hhalf H. revert Hhalf H.
      generalize (k `mod` w) (stride `div` 2). intros; lia.
    + clear -Hhalf H0. revert Hhalf H0.
      generalize (k `div` w) (stride `div` 2). intros; lia.
    + rewrite Nat.add_comm, Nat.Div0.mod_add. by apply Nat.mod_small.
    + rewrite Nat.add_comm, Nat.Div0.mod_add. by apply Nat.mod_small.
Qed.

Lemma locations_per_level_distinct_witness :
  NoDup [(4, 4); (12, 4); (20, 4); (4, 12); (12, 12); (20, 12)].
Proof.
  refine (match locations_per_level_distinct 2 3 8 _ _ _ with
          | conj H _ => H end); [lia|by vm_compute].
Defined.

Lemma compute_locations_from_spec fpn_strides features :
  Forall (λ s, 0 < s) fpn_strides →
  ∀ level,
  (level + length features ≤ length fpn_strides →
   ∃ locations, compute_locations_from fpn_strides level features = Ok locations ∧
     Forall2 (λ locs '(h, w), length locs = h * w) locations features ∧
     ∀ k locs h w stride, locations !! k = Some locs →
       features !! k = Some (h, w) → fpn_strides !! (level + k) = Some stride →
       compute_locations_per_level h w stride = Ok locs) ∧
  (level ≤ length fpn_strides → length fpn_strides < level + length features →
   compute_locations_from fpn_strides level features = Raise IndexError).
Proof.
  intros Hpos. induction features as [|[h w] features IH]; intros level.
  - split; [|simpl; lia]. intros _. exists []. split_and!; [done|done|].
    intros k ? ? ? ? Hk. done.
  - simpl. destruct (IH (S level)) as [IHok IHraise]. split.
    + intros Hlen.
      destruct (lookup_lt_is_Some_2 fpn_strides level) as [stride Hst]; [lia|].
      assert (getitem fpn_strides level = Ok stride) as ->.
      { unfold getitem. by rewrite Hst. }
      cbn [mbind result_bind].
      assert (0 < stride) as Hs by (eapply Forall_lookup_1 in Hpos; eauto).
      destruct (locations_per_level_spec h w stride Hs) as (locs & Hrun & Hl & _).
      rewrite Hrun. cbn [mbind result_bind].
      destruct IHok as (rest & -> & Hshape & Hat); [lia|].
      cbn [mbind result_bind]. exists (locs :: rest).
      split; [done|]. split; [by constructor|].
      intros [|k] locs' h' w' stride' Hk Hf Hs'; simpl in Hk, Hf.
      * injection Hk as <-. injection Hf as <- <-.
        rewrite Nat.add_0_r, Hst in Hs'. by injection Hs' as <-.
      * eapply Hat; eauto.
        replace (S level + k) with (level + S k) by lia. done.
    + intros Hlevel Hlen. destruct (fpn_strides !! level) as [stride|] eqn:Hst.
      * assert (getitem fpn_strides level = Ok stride) as ->.
        { unfold getitem. by rewrite Hst. }
        cbn [mbind result_bind].
        assert (0 < stride) as Hs by (eapply Forall_lookup_1 in Hpos; eauto).
        destruct (locations_per_level_spec h w stride Hs) as (locs & -> & _).
        cbn [mbind result_bind].
        apply lookup_lt_Some in Hst. rewrite IHraise by lia. done.
      * unfold getitem. by rewrite Hst.
Qed.

(** X15. With positive strides, [compute_locations] returns one list of
    locations per feature map, of [h * w] points each, exactly when there
    are at least as many strides as feature maps; with more feature maps
    than strides it raises [IndexError] (from [self.fpn_strides[level]]).
    Level [level] is computed with the stride at index [level]. *)
Theorem compute_locations_levels fpn_strides features :
  Forall (λ s, 0 < s) fpn_strides →
  (length features ≤ length fpn_strides →
   ∃ locations, compute_locations fpn_strides features = Ok locations ∧
     Forall2 (λ locs '(h, w), length locs = h * w) locations features ∧
     ∀ level locs h w stride, locations !! level = Some locs →
       features !! level = Some (h, w) → fpn_strides !! level = Some stride →
       compute_locations_per_level h w stride = Ok locs) ∧
  (length fpn_strides < length features →
   compute_locations fpn_strides features = Raise IndexError).
Proof.
  intros Hpos.
  destruct (compute_locations_from_spec fpn_strides features Hpos 0) as [Hok Hraise].
  split.
  - intros Hlen. destruct Hok as (locations & Hrun & Hshape & Hat); [done|].
    exists locations. split_and!; [done..|].
    intros level locs h w stride Hl Hf Hs. by apply (Hat level).
  - intros Hlen. apply Hraise; [lia|done].
Qed.

Lemma compute_locations_levels_witness :
  (∃ locations, compute_locations [8; 16; 32] [(2, 3); (1, 2)] = Ok locations ∧
     Forall2 (λ locs '(h, w), length locs = h * w) locations [(2, 3); (1, 2)]) ∧
  compute_locations [8] [(2, 3); (1, 2)] = Raise IndexError.
Proof.
  split.
  - refine (match compute_locations_levels [8; 16; 32] [(2, 3); (1, 2)] _ with
            | conj H _ => match H _ with
                          | ex_intro _ l (conj H1 (conj H2 _)) =>
                              ex_intro _ l (conj H1 H2)
                          end
            end); [repeat constructor|simpl; lia].
  - refine (match compute_locations_levels [8] [(2, 3); (1, 2)] _ with
            | conj _ H => H _ end); [repeat constructor|simpl; lia].
Defined.

(** ** The IoU of the predicted boxes, regrouped by level *)






Section IoUCalcFacts.

Variable decode : Box → Box → Box.
Variable max_iou : list Box → BoxList → result (list Q).
Variable Tensor : Type.
Variable concat_box_prediction_layers :
  list Tensor → list Tensor → list (list Q) * list Box.





End IoUCalcFacts.

